(** * miniplay.py: a shallow embedding and its verified properties

    miniplay.py pregenerates one second of stereo PCM audio and writes it in an
    endless loop to the standard input of aplay(1).  This development embeds
    the argument parser, the format selection, the sample packing
    (struct.pack), the bit-pattern generator and the playback loop of
    [main], and proves properties of them.

    Python integers are unbounded: they are [Z], and [%] and [/] on them are
    [Z.modulo] and [Z.div] (both floor towards minus infinity, as in Python 2)
    with the division by zero raised explicitly.  A Python 2 [str] holding
    text is a [string]; a [str] holding packed samples is a [list byte].
    Exceptions are values of [exn], carried by the [outcome] monad. *)

From Stdlib Require Import ZArith List String Ascii Bool Lia DecimalString.
From Stdlib Require Import Strings.Byte.
From Stdlib Require Import Reals Lra Machin.
Import ListNotations.

Local Open Scope string_scope.
Local Open Scope Z_scope.

(** Python's [==] on strings. *)
Infix "==" := String.eqb (at level 70, no associativity).

(** ** Exceptions and outcomes *)

(** The text of an exception.  [FailedWithExitCode cmd code] stands for
    ['%s failed with exit code %d' % (cmd, exit_code)], whose first part is
    the [repr] of the command tuple. *)
Inductive message : Type :=
| Text (s : string)
| FailedWithExitCode (cmd : list string) (exit_code : Z).

Inductive exn : Type :=
| RuntimeError (msg : message)
| ValueError (msg : string)
| ZeroDivisionError
| IndexError
| StructError
| AssertionError
| IOError (errno : Z)
| OSError (errno : Z)
| KeyboardInterrupt.

(** [Unfinished] is the outcome of a loop that is still running when the
    fuel given to it is used up; no [try] statement observes it. *)
Inductive outcome (A : Type) : Type :=
| Ok (a : A)
| Raise (e : exn)
| Unfinished.

Arguments Ok {A} a.
Arguments Raise {A} e.
Arguments Unfinished {A}.

Definition bind {A B : Type} (m : outcome A) (k : A -> outcome B) : outcome B :=
  match m with
  | Ok a => k a
  | Raise e => Raise e
  | Unfinished => Unfinished
  end.

Notation "x <- m ;; k" := (bind m (fun x => k))
  (at level 61, m at next level, right associativity).

(** [str(n)] and ['%d' % n] for an integer. *)
Definition str_int (n : Z) : string := NilZero.string_of_int (Z.to_int n).

(** ** Command line (lines 49-77) *)

Record options : Type := mkOptions {
  device : string;
  format : option string;
  tune : string
}.

Definition default_options : options :=
  {| device := "dmix"; format := None; tune := "sinlh" |}.

(** [argv[i]]; every use is guarded by [i < len(argv)]. *)
Definition item (argv : list string) (i : nat) : string := nth i argv "".

(** The [while i < len(argv)] loop.  Every iteration that does not leave the
    loop advances [i], so [len(argv)] iterations are enough. *)
Fixpoint parse_loop (fuel : nat) (argv : list string) (i : nat) (o : options)
  : outcome (nat * options) :=
  match fuel with
  | O => Unfinished
  | S fuel' =>
    if (i <? List.length argv)%nat then
      let arg := item argv i in
      if arg == "-" then Ok (i, o)
      else
        let i := S i in
        if arg == "--" then Ok (i, o)
        else if (arg == "-D") && (i <? List.length argv)%nat then
          parse_loop fuel' argv (S i)
            {| device := item argv i; format := format o; tune := tune o |}
        else if (arg == "-f") && (i <? List.length argv)%nat then
          parse_loop fuel' argv (S i)
            {| device := device o; format := Some (item argv i); tune := tune o |}
        else if (arg == "-T") && (i <? List.length argv)%nat then
          parse_loop fuel' argv (S i)
            {| device := device o; format := format o; tune := item argv i |}
        else Raise (RuntimeError (Text ("Unknown flag: " ++ arg)))
    else Ok (i, o)
  end.

Definition parse_args (argv : list string) : outcome options :=
  r <- parse_loop (S (List.length argv)) argv 1 default_options ;;
  if negb (fst r =? List.length argv)%nat
  then Raise (RuntimeError (Text "Too many command-line arguments."))
  else Ok (snd r).

(** ** Sample format (lines 78-94) *)

(** [device.startswith('dmix:')] is [String.prefix]. *)
Definition infer_format (format : option string) (device : string) : string :=
  match format with
  | Some f => f
  | None =>
    if (device == "dmix") || prefix "dmix:" device then "S32_LE"
    else "S16_LE"
  end.

(** The triple [(fmt, maxv, sbs)] bound by the chain of [if]/[elif]. *)
Record encoding : Type := mkEncoding {
  fmt : string;
  maxv : Z;
  sbs : Z
}.

Definition select_encoding (format : string) : outcome encoding :=
  if format == "S16_LE" then Ok (mkEncoding "<hh" 32767 2)
  else if format == "S16_BE" then Ok (mkEncoding ">hh" 32767 2)
  else if format == "S32_LE" then Ok (mkEncoding "<ll" 2147483647 4)
  else if format == "S32_LE" then Ok (mkEncoding ">ll" 2147483647 4)
  else Raise (RuntimeError (Text ("Unknown format: " ++ format))).

(** The four triples written in lines 86, 88, 90 and 92. *)
Definition encodings : list encoding :=
  [ mkEncoding "<hh" 32767 2; mkEncoding ">hh" 32767 2;
    mkEncoding "<ll" 2147483647 4; mkEncoding ">ll" 2147483647 4 ].

(** ** struct.pack (lines 105, 112-128)

    The format strings of the program start with a byte-order character,
    ['<'] or ['>'], followed by item codes ['h'] (2 bytes) or ['l'] (4 bytes,
    standard size).  Only this part of the struct module is modelled; a
    value outside the range of its item raises [struct.error]. *)

Inductive byte_order : Type := LittleEndian | BigEndian.

Definition byte_order_of (c : ascii) : option byte_order :=
  if Ascii.eqb c "<" then Some LittleEndian
  else if Ascii.eqb c ">" then Some BigEndian
  else None.

Definition item_size (c : ascii) : option nat :=
  if Ascii.eqb c "h" then Some 2%nat
  else if Ascii.eqb c "l" then Some 4%nat
  else None.

Definition byte_of_Z (z : Z) : byte :=
  match Byte.of_N (Z.to_N z) with
  | Some b => b
  | None => x00
  end.

Definition Z_of_byte (b : byte) : Z := Z.of_N (Byte.to_N b).

(** The [n] low bytes of the two's complement of [v], least significant
    first. *)
Fixpoint le_bytes (n : nat) (v : Z) : list byte :=
  match n with
  | O => []
  | S n' => byte_of_Z (v mod 256) :: le_bytes n' (v / 256)
  end.

Definition ordered (bo : byte_order) (bs : list byte) : list byte :=
  match bo with
  | LittleEndian => bs
  | BigEndian => rev bs
  end.

Definition pack_int (bo : byte_order) (n : nat) (v : Z) : outcome (list byte) :=
  let half := 2 ^ (8 * Z.of_nat n - 1) in
  if (- half <=? v) && (v <? half) then Ok (ordered bo (le_bytes n v))
  else Raise StructError.

Fixpoint pack_items (bo : byte_order) (codes : list ascii) (vals : list Z)
  : outcome (list byte) :=
  match codes, vals with
  | [], [] => Ok []
  | c :: codes', v :: vals' =>
    match item_size c with
    | Some n =>
      b <- pack_int bo n v ;;
      r <- pack_items bo codes' vals' ;;
      Ok (b ++ r)%list
    | None => Raise StructError
    end
  | _, _ => Raise StructError
  end.

Definition pack (fmt : string) (vals : list Z) : outcome (list byte) :=
  match fmt with
  | String c codes =>
    match byte_order_of c with
    | Some bo => pack_items bo (list_ascii_of_string codes) vals
    | None => Raise StructError
    end
  | EmptyString => Raise StructError
  end.

(** ** Building the buffer *)

(** [xrange(n)]: the integers from 0 up to [n - 1], none when [n <= 0]. *)
Fixpoint count_from (start : Z) (n : nat) : list Z :=
  match n with
  | O => []
  | S n' => start :: count_from (start + 1) n'
  end.

Definition xrange (n : Z) : list Z := count_from 0 (Z.to_nat n).

(** [''.join(parts)], the parts evaluated in order; the first exception
    ends the evaluation. *)
Fixpoint join (parts : list (outcome (list byte))) : outcome (list byte) :=
  match parts with
  | [] => Ok []
  | p :: parts' =>
    b <- p ;;
    r <- join parts' ;;
    Ok (b ++ r)%list
  end.

(** [s * n] for a string and an integer: empty when [n <= 0]. *)
Definition str_mul (s : list byte) (n : Z) : list byte :=
  List.concat (repeat s (Z.to_nat n)).

(** [c not in '0\0'] for a string [c] of one character. *)
Definition not_in_0_nul (c : ascii) : bool :=
  negb (Ascii.eqb c "0" || Ascii.eqb c zero).

(** [s.split(sep, 1)]. *)
Fixpoint split_once (sep : ascii) (s : string) : list string :=
  match s with
  | EmptyString => [EmptyString]
  | String c s' =>
    if Ascii.eqb c sep then [EmptyString; s']
    else
      match split_once sep s' with
      | h :: t => String c h :: t
      | [] => []
      end
  end.

Section Generator.

(** [isin rate maxv i] is [int(math.sin(i * m) * maxv)] and
    [isin4 rate maxv i] is [int(math.sin(i * m / 4) * maxv)], where
    [m = math.pi * 2 * hz / rate] and [hz = 440].  They are computed in
    floating point by the platform's libm; the development is parametric in
    them. *)
Variable isin : Z -> Z -> Z -> Z.
Variable isin4 : Z -> Z -> Z -> Z.

(** [rate] is a variable of [main] that the nested function reads. *)
Definition get_data_for_bits (e : encoding) (rate : Z) (bitrate : Z)
  (bits : string) : outcome (list byte) :=
  if bitrate =? 0 then Raise ZeroDivisionError
  else if negb (rate mod bitrate =? 0) then
    Raise (ValueError ("Invalid rate " ++ str_int rate
                       ++ ", must be a multiple of " ++ str_int bitrate ++ "."))
  else
    let s := Z.of_nat (String.length bits) in
    if s >? bitrate then Raise (ValueError "Too many bits of data.")
    else
      let rss := rate / bitrate in
      lo <- pack (fmt e) [- maxv e; - maxv e] ;;
      hi <- pack (fmt e) [maxv e; maxv e] ;;
      join (map (fun i =>
                   if s =? 0 then Raise ZeroDivisionError
                   else
                     match String.get (Z.to_nat (i mod s)) bits with
                     | Some c => Ok (str_mul (if not_in_0_nul c then hi else lo) rss)
                     | None => Raise IndexError
                     end)
                (xrange bitrate)).

(** Lines 108-136.  Line 109 divides a float by [rate]. *)
Definition generate (e : encoding) (rate : Z) (tune : string)
  : outcome (list byte) :=
  if rate =? 0 then Raise ZeroDivisionError
  else if (tune == "sin") || (tune == "sine") then
    join (map (fun i => pack (fmt e) [isin rate (maxv e) i; isin rate (maxv e) i])
              (xrange rate))
  else if tune == "sinlh" then
    join (map (fun i => pack (fmt e) [isin4 rate (maxv e) i; isin rate (maxv e) i])
              (xrange rate))
  else if tune == "sinl" then
    join (map (fun i => pack (fmt e) [isin4 rate (maxv e) i; 0]) (xrange rate))
  else if tune == "sinh" then
    join (map (fun i => pack (fmt e) [0; isin rate (maxv e) i]) (xrange rate))
  else if tune == "square" then get_data_for_bits e rate 1200 "01"
  else if prefix "bits:" tune then
    match split_once ":" tune with
    | _ :: bits :: _ => get_data_for_bits e rate 1200 bits
    | _ => Raise IndexError
    end
  else Raise (RuntimeError (Text ("Unknown tune: " ++ tune))).

(** [assert len(data) == rate * sbs * 2] (line 137). *)
Definition assert_length (data : list byte) (rate : Z) (sbs : Z) : outcome unit :=
  if Z.of_nat (List.length data) =? rate * sbs * 2 then Ok tt
  else Raise AssertionError.

Definition rate : Z := 48000.

(** Everything [main] has when it reaches line 140. *)
Record prepared : Type := mkPrepared {
  cmd : list string;
  data : list byte
}.

(** Lines 49-139 of [main]. *)
Definition prepare (argv : list string) : outcome prepared :=
  o <- parse_args argv ;;
  let format := infer_format (format o) (device o) in
  e <- select_encoding format ;;
  data <- generate e rate (tune o) ;;
  _ <- assert_length data rate (sbs e) ;;
  Ok {| cmd := ["aplay"; "-D"; device o; "-f"; format; "-c"; "2"; "-r";
                str_int rate; "-q"];
        data := data |}.

End Generator.

(** ** Playback (lines 139-155)

    The sink is the world outside the program: it decides what each call on
    the process object does.  [write n data] is the [n]-th
    [p.stdin.write(data)], [flush n] the [n]-th [p.stdin.flush()]; an
    interrupt from the keyboard is the [KeyboardInterrupt] raised by the
    call during which it arrives. *)
Record sink : Type := mkSink {
  spawn : list string -> outcome unit;
  write : nat -> list byte -> outcome unit;
  flush : nat -> outcome unit;
  close : outcome unit;
  wait : outcome Z
}.

(** [while 1: p.stdin.write(data); p.stdin.flush()], from iteration [n]. *)
Fixpoint write_loop (fuel : nat) (env : sink) (data : list byte) (n : nat)
  : outcome unit :=
  match fuel with
  | O => Unfinished
  | S fuel' =>
    _ <- write env n data ;;
    _ <- flush env n ;;
    write_loop fuel' env data (S n)
  end.

(** [try: body / except classes: pass]. *)
Definition try_except_pass (classes : exn -> bool) (body : outcome unit)
  : outcome unit :=
  match body with
  | Raise e => if classes e then Ok tt else Raise e
  | r => r
  end.

(** [try: body / finally: final], where [final] leaves a value behind (the
    assignment to [exit_code]).  After an exception in [body] the exception
    is raised again once [final] is done, unless [final] raises itself. *)
Definition try_finally {A B : Type} (body : outcome A) (final : outcome B)
  : outcome (A * B) :=
  match body with
  | Ok a => b <- final ;; Ok (a, b)
  | Raise e => _ <- final ;; Raise e
  | Unfinished => Unfinished
  end.

Definition is_KeyboardInterrupt (e : exn) : bool :=
  match e with KeyboardInterrupt => true | _ => false end.

Definition is_OSError_or_IOError (e : exn) : bool :=
  match e with OSError _ | IOError _ => true | _ => false end.

(** The inner [try] statement (lines 142-151); its value is [exit_code]. *)
Definition write_until_stopped (fuel : nat) (env : sink) (data : list byte)
  : outcome Z :=
  r <- try_finally
         (write_loop fuel env data 0)
         (_ <- try_except_pass is_OSError_or_IOError (close env) ;;
          wait env) ;;
  Ok (snd r).

(** Lines 139-155. *)
Definition play (fuel : nat) (env : sink) (p : prepared) : outcome unit :=
  _ <- spawn env (cmd p) ;;
  try_except_pass is_KeyboardInterrupt
    (exit_code <- write_until_stopped fuel env (data p) ;;
     if negb (exit_code =? 0)
     then Raise (RuntimeError (FailedWithExitCode (cmd p) exit_code))
     else Ok tt).

Definition main (isin isin4 : Z -> Z -> Z -> Z) (fuel : nat) (env : sink)
  (argv : list string) : outcome unit :=
  p <- prepare isin isin4 argv ;;
  play fuel env p.

(** ** Reading a buffer back *)

Fixpoint le_value (bs : list byte) : Z :=
  match bs with
  | [] => 0
  | b :: bs' => Z_of_byte b + 256 * le_value bs'
  end.

Definition unpack_int (bo : byte_order) (n : nat) (bs : list byte) : Z :=
  let u := le_value (ordered bo bs) in
  if u <? 2 ^ (8 * Z.of_nat n - 1) then u else u - 2 ^ (8 * Z.of_nat n).

Fixpoint unpack_items (bo : byte_order) (codes : list ascii) (bs : list byte)
  : outcome (list Z) :=
  match codes with
  | [] => match bs with [] => Ok [] | _ => Raise StructError end
  | c :: codes' =>
    match item_size c with
    | Some n =>
      if (List.length bs <? n)%nat then Raise StructError
      else
        r <- unpack_items bo codes' (skipn n bs) ;;
        Ok (unpack_int bo n (firstn n bs) :: r)
    | None => Raise StructError
    end
  end.

(** Modelled from the spec: the decoder of the round-trip law.  The program
    only encodes; decoding "with the same width and byte order" is read as
    struct.unpack with the format string that packed the frame: each item
    is the two's complement value of its bytes. *)
Definition unpack (fmt : string) (bs : list byte) : outcome (list Z) :=
  match fmt with
  | String c codes =>
    match byte_order_of c with
    | Some bo => unpack_items bo (list_ascii_of_string codes) bs
    | None => Raise StructError
    end
  | EmptyString => Raise StructError
  end.

(** The [k]-th frame of a buffer whose frames are [w] bytes wide. *)
Definition frame (w : nat) (data : list byte) (k : nat) : list byte :=
  firstn w (skipn (k * w) data).

(** The symbol of slot [i] of a pattern is low when it is ['0'] or a null
    byte. *)
Definition slot_is_low (bits : string) (i : Z) : bool :=
  match String.get (Z.to_nat (i mod Z.of_nat (String.length bits))) bits with
  | Some c => Ascii.eqb c "0" || Ascii.eqb c zero
  | None => false
  end.

(** ** Vocabulary of the statements *)

(** The flags that take a value. *)
Definition value_flags : list string := ["-D"; "-f"; "-T"].

(** Flags with their values, as they stand on a command line. *)
Definition flatten_pairs (pairs : list (string * string)) : list string :=
  flat_map (fun p => [fst p; snd p]) pairs.

(** The device names that stand for the mixing device. *)
Definition is_dmix (device : string) : Prop :=
  device = "dmix" \/ exists rest, device = "dmix:" ++ rest.

(** The width in bytes of the buffer a list of item codes packs to. *)
Fixpoint items_size (codes : list ascii) : nat :=
  match codes with
  | [] => 0
  | c :: codes' =>
    match item_size c with
    | Some n => n + items_size codes'
    | None => 0
    end
  end.

(** The slots of a pattern that passes the checks, one after the other. *)
Definition slots (lo hi : list byte) (rss bitrate : Z) (bits : string)
  : list (list byte) :=
  map (fun i => str_mul (if slot_is_low bits i then lo else hi) rss)
      (xrange bitrate).

(** The two messages of [get_data_for_bits]. *)
Definition invalid_rate (rate bitrate : Z) : string :=
  "Invalid rate " ++ str_int rate ++ ", must be a multiple of "
  ++ str_int bitrate ++ ".".

Definition too_many_bits : string := "Too many bits of data.".

(** A stand-in for the sine samples where a concrete run needs one. *)
Definition silence (_ _ _ : Z) : Z := 0.

(** A sink that takes two buffers and then exits with status 1: the third
    write fails with EPIPE (errno 32). *)
Definition dying_sink : sink :=
  {| spawn := fun _ => Ok tt;
     write := fun n _ => if (n <? 2)%nat then Ok tt else Raise (IOError 32);
     flush := fun _ => Ok tt;
     close := Ok tt;
     wait := Ok 1 |}.

(** A sink that plays until the keyboard interrupts the third write. *)
Definition interrupted_sink : sink :=
  {| spawn := fun _ => Ok tt;
     write := fun n _ => if (n <? 2)%nat then Ok tt else Raise KeyboardInterrupt;
     flush := fun _ => Ok tt;
     close := Ok tt;
     wait := Ok 0 |}.

(** What one flag with its value does to the options (lines 65-73). *)
Definition set_option (o : options) (p : string * string) : options :=
  if fst p == "-D" then
    {| device := snd p; format := format o; tune := tune o |}
  else if fst p == "-f" then
    {| device := device o; format := Some (snd p); tune := tune o |}
  else if fst p == "-T" then
    {| device := device o; format := format o; tune := snd p |}
  else o.

(** The options after a run of flags with values, from left to right. *)
Definition set_options (pairs : list (string * string)) (o : options) : options :=
  fold_left set_option pairs o.

Definition too_many_arguments : exn :=
  RuntimeError (Text "Too many command-line arguments.").

(** The format names for which a branch of lines 85-92 can be taken. *)
Definition known_formats : list string := ["S16_LE"; "S16_BE"; "S32_LE"].

(** The values an item of [n] bytes can hold. *)
Definition fits (n : Z) (v : Z) : Prop :=
  - 2 ^ (8 * n - 1) <= v <= 2 ^ (8 * n - 1) - 1.

(** The tune names of lines 110-132, a pattern included. *)
Definition known_tune (tune : string) : bool :=
  (tune == "sin") || (tune == "sine") || (tune == "sinlh") || (tune == "sinl")
  || (tune == "sinh") || (tune == "square") || prefix "bits:" tune.

(** The left and the right sample of frame [i] of a sine tune (lines
    112-128), given the two sample functions at the rate and amplitude in
    use. *)
Definition sine_samples (s s4 : Z -> Z) (tune : string)
  : option ((Z -> Z) * (Z -> Z)) :=
  if (tune == "sin") || (tune == "sine") then Some (s, s)
  else if tune == "sinlh" then Some (s4, s)
  else if tune == "sinl" then Some (s4, fun _ => 0)
  else if tune == "sinh" then Some (fun _ => 0, s)
  else None.

(** The sink takes the first [n] buffers: the writes and flushes of the
    iterations 0 to [n - 1] succeed. *)
Definition accepts (env : sink) (data : list byte) (n : nat) : Prop :=
  forall k, (k < n)%nat -> write env k data = Ok tt /\ flush env k = Ok tt.

(** Iteration [n] of the loop fails with [x], in its write or in its
    flush. *)
Definition fails_at (env : sink) (data : list byte) (n : nat) (x : exn) : Prop :=
  write env n data = Raise x \/
  (write env n data = Ok tt /\ flush env n = Raise x).

(** Closing the pipe succeeds or fails with an error that line 149 ignores. *)
Definition close_ignored (env : sink) : Prop :=
  close env = Ok tt \/
  exists x, close env = Raise x /\ is_OSError_or_IOError x = true.

(** What the [except KeyboardInterrupt: pass] of line 154 makes of an
    exception that reaches it. *)
Definition after_interrupt_handler (x : exn) : outcome unit :=
  if is_KeyboardInterrupt x then Ok tt else Raise x.

(** ** The sine samples (lines 108-113)

    [math.pi] and [math.sin] are taken from the documentation of the math
    module: the constant pi, and the sine of an angle given in radians.  A
    float is read as the real number it stands for, and [int(x)] of a float
    truncates toward zero. *)

Definition hz : Z := 440.

(** [m = math.pi * 2 * hz / rate] (line 109). *)
Definition m (rate : Z) : R := (PI * 2 * IZR hz / IZR rate)%R.

(** [int(x)] for a float [x]. *)
Definition int_of_float (x : R) : Z :=
  if Rle_dec 0 x then Zfloor x else Zceil x.


(** [int(math.sin(i * m / 4) * maxv)] (lines 117, 122). *)
Definition sin4_sample (rate maxv i : Z) : Z :=
  int_of_float (sin (IZR i * m rate / 4) * IZR maxv).




(** * Properties *)

(** ** Strings *)

Lemma prefix_app (p s : string) :
  prefix p s = true <-> exists rest, s = p ++ rest.
Proof.
  revert s; induction p as [|c p IH]; intros s.
  - split; [intros _; now exists s | intros _; now destruct s].
  - destruct s as [|d s]; simpl.
    + split; [discriminate | intros [rest H]; discriminate].
    + destruct (ascii_dec c d) as [->|Hcd].
      * rewrite IH. split; intros [rest H]; exists rest.
        -- now rewrite H.
        -- now inversion H.
      * split; [discriminate | intros [rest H]; simpl in H; congruence].
Qed.

Lemma eqb_true (a b : string) : (a == b) = true <-> a = b.
Proof. apply String.eqb_eq. Qed.

(** ** The command line *)

Lemma item_middle (pre : list string) (x : string) (post : list string) :
  item (pre ++ x :: post) (List.length pre) = x.
Proof. unfold item. apply nth_middle. Qed.

Lemma item_middle_S (pre : list string) (x y : string) (post : list string) :
  item (pre ++ x :: y :: post) (S (List.length pre)) = y.
Proof.
  replace (pre ++ x :: y :: post)%list with ((pre ++ [x]) ++ y :: post)%list
    by now rewrite <- app_assoc.
  replace (S (List.length pre)) with (List.length (pre ++ [x])%list)
    by (rewrite length_app; simpl; lia).
  apply item_middle.
Qed.

(** The fuel [parse_args] gives to the loop is never used up. *)
Lemma parse_loop_finishes (fuel : nat) :
  forall argv i o, (List.length argv - i < fuel)%nat ->
  parse_loop fuel argv i o <> Unfinished.
Proof.
  induction fuel as [|fuel IH]; intros argv i o Hf; [lia|].
  simpl. destruct (i <? List.length argv)%nat eqn:Hi; [|discriminate].
  apply Nat.ltb_lt in Hi.
  destruct (item argv i == "-"); [discriminate|].
  destruct (item argv i == "--"); [discriminate|].
  destruct (S i <? List.length argv)%nat eqn:Hi'; rewrite ?andb_false_r, ?andb_true_r.
  - destruct (item argv i == "-D"); [apply IH; lia|].
    destruct (item argv i == "-f"); [apply IH; lia|].
    destruct (item argv i == "-T"); [apply IH; lia|discriminate].
  - discriminate.
Qed.

Lemma parse_args_finishes (argv : list string) : parse_args argv <> Unfinished.
Proof.
  unfold parse_args.
  pose proof (parse_loop_finishes (S (List.length argv)) argv 1 default_options) as H.
  destruct (parse_loop _ argv 1 default_options) as [[i o]| |]; simpl.
  - destruct (negb _); discriminate.
  - discriminate.
  - exfalso; apply H; [lia|reflexivity].
Qed.

Lemma parse_loop_dangling_flag (pairs : list (string * string)) :
  forall fuel pre o flag,
  Forall (fun p => In (fst p) value_flags) pairs ->
  In flag value_flags ->
  (List.length pairs < fuel)%nat ->
  parse_loop fuel (pre ++ flatten_pairs pairs ++ [flag]) (List.length pre) o
  = Raise (RuntimeError (Text ("Unknown flag: " ++ flag))).
Proof.
  induction pairs as [|[f v] pairs IH]; intros fuel pre o flag Hp Hf Hfuel;
    (destruct fuel as [|fuel]; [simpl in Hfuel; lia|]).
  - simpl flatten_pairs. simpl app at 2. simpl parse_loop.
    rewrite item_middle.
    replace (List.length pre <? List.length (pre ++ [flag]))%nat with true
      by (symmetry; apply Nat.ltb_lt; rewrite length_app; simpl; lia).
    replace (S (List.length pre) <? List.length (pre ++ [flag]))%nat with false
      by (symmetry; apply Nat.ltb_ge; rewrite length_app; simpl; lia).
    rewrite !andb_false_r.
    simpl in Hf.
    destruct Hf as [<-|[<-|[<-|[]]]]; reflexivity.
  - inversion Hp as [|? ? Hfv Hp']; subst. simpl in Hfv.
    change (flatten_pairs ((f, v) :: pairs)) with (f :: v :: flatten_pairs pairs).
    simpl app at 2.
    assert (Hre : (pre ++ f :: v :: flatten_pairs pairs ++ [flag]
                   = (pre ++ [f; v]) ++ flatten_pairs pairs ++ [flag])%list)
      by now rewrite <- app_assoc.
    assert (Hlen : S (S (List.length pre)) = List.length (pre ++ [f; v])%list)
      by (rewrite length_app; simpl; lia).
    simpl parse_loop.
    rewrite item_middle, item_middle_S.
    replace (List.length pre <?
             List.length (pre ++ f :: v :: flatten_pairs pairs ++ [flag]))%nat
      with true
      by (symmetry; apply Nat.ltb_lt; rewrite length_app; simpl; lia).
    replace (S (List.length pre) <?
             List.length (pre ++ f :: v :: flatten_pairs pairs ++ [flag]))%nat
      with true
      by (symmetry; apply Nat.ltb_lt; rewrite length_app; simpl; lia).
    rewrite !andb_true_r, Hre, Hlen.
    simpl in Hfuel.
    destruct Hfv as [<-|[<-|[<-|[]]]]; simpl;
      apply IH; auto; lia.
Qed.

(** C10: when the arguments before it are flags with their values, a final
    [-D], [-f] or [-T] that has no value after it makes the parser raise
    [RuntimeError('Unknown flag: ' + flag)]: no default is taken and no
    other error is reported. *)
Theorem dangling_flag_is_unknown_flag (prog flag : string)
  (pairs : list (string * string)) :
  Forall (fun p => In (fst p) value_flags) pairs ->
  In flag value_flags ->
  parse_args (prog :: flatten_pairs pairs ++ [flag])
  = Raise (RuntimeError (Text ("Unknown flag: " ++ flag))).
Proof.
  intros Hp Hf. unfold parse_args.
  change (prog :: flatten_pairs pairs ++ [flag])%list
    with ([prog] ++ flatten_pairs pairs ++ [flag])%list.
  change 1%nat with (List.length [prog]).
  rewrite parse_loop_dangling_flag; auto.
  rewrite !length_app. unfold flatten_pairs.
  rewrite (flat_map_constant_length (c := 2%nat)) by reflexivity.
  simpl. lia.
Qed.

Lemma dangling_flag_is_unknown_flag_witness :
  parse_args ["miniplay.py"; "-D"; "default"; "-T"; "square"; "-f"]
  = Raise (RuntimeError (Text "Unknown flag: -f")).
Proof.
  apply (dangling_flag_is_unknown_flag "miniplay.py" "-f"
           [("-D", "default"); ("-T", "square")]).
  - repeat (apply Forall_cons || apply Forall_nil); simpl; auto.
  - simpl; auto.
Defined.

(** ** The sample format *)

Lemma is_dmix_test (device : string) :
  (device == "dmix") || prefix "dmix:" device = true <-> is_dmix device.
Proof.
  unfold is_dmix. rewrite orb_true_iff, eqb_true, prefix_app. reflexivity.
Qed.

(** C4: without [-f], the format is [S32_LE] for the device [dmix] and for
    every device whose name starts with [dmix:], and [S16_LE] for every other
    device; with [-f], the format is the one given, whatever the device. *)
Theorem format_inferred_from_device (device : string) :
  (is_dmix device -> infer_format None device = "S32_LE") /\
  (~ is_dmix device -> infer_format None device = "S16_LE") /\
  (forall f device', infer_format (Some f) device = f /\
                     infer_format (Some f) device' = infer_format (Some f) device).
Proof.
  unfold infer_format. repeat split.
  - intros H. apply is_dmix_test in H. now rewrite H.
  - intros H. destruct ((device == "dmix") || prefix "dmix:" device) eqn:E; auto.
    apply is_dmix_test in E. contradiction.
Qed.

Lemma format_inferred_from_device_witness :
  infer_format None "dmix:CARD=0,DEV=0" = "S32_LE" /\
  infer_format None "default" = "S16_LE".
Proof.
  split.
  - apply (proj1 (format_inferred_from_device "dmix:CARD=0,DEV=0")).
    right. exists ("CARD=0,DEV=0"%string). reflexivity.
  - apply (proj1 (proj2 (format_inferred_from_device "default"))).
    intros [H|[rest H]]; discriminate.
Defined.

Lemma select_encoding_known (format : string) (e : encoding) :
  select_encoding format = Ok e -> In e encodings.
Proof.
  unfold select_encoding, encodings.
  repeat (destruct (format == _);
          [intros H; inversion H; subst; simpl; tauto|]).
  discriminate.
Qed.

(** C5: [S16_LE], [S16_BE] and [S32_LE] select their encodings; [S32_BE]
    is refused as an unknown format, because the branch meant for it (line
    91) tests for [S32_LE] a second time. *)
Theorem explicit_formats :
  select_encoding "S16_LE" = Ok (mkEncoding "<hh" 32767 2) /\
  select_encoding "S16_BE" = Ok (mkEncoding ">hh" 32767 2) /\
  select_encoding "S32_LE" = Ok (mkEncoding "<ll" 2147483647 4) /\
  select_encoding "S32_BE" = Raise (RuntimeError (Text "Unknown format: S32_BE")) /\
  (forall format, select_encoding format <> Ok (mkEncoding ">ll" 2147483647 4)) /\
  (forall isin isin4,
     prepare isin isin4 ["miniplay.py"; "-f"; "S32_BE"]
     = Raise (RuntimeError (Text "Unknown format: S32_BE"))).
Proof.
  repeat split; try reflexivity.
  intros format. unfold select_encoding.
  repeat (destruct (format == _); [discriminate|]).
  discriminate.
Qed.

(** ** Packing *)

Lemma Z_of_byte_of_Z (z : Z) : 0 <= z < 256 -> Z_of_byte (byte_of_Z z) = z.
Proof.
  intros Hz. unfold Z_of_byte, byte_of_Z.
  destruct (Byte.of_N (Z.to_N z)) as [b|] eqn:E.
  - apply Byte.to_of_N in E. rewrite E. lia.
  - apply Byte.of_N_None_iff in E. lia.
Qed.

Lemma length_le_bytes (n : nat) : forall v, List.length (le_bytes n v) = n.
Proof. induction n; intros v; simpl; auto. Qed.

Lemma le_value_le_bytes (n : nat) :
  forall v, le_value (le_bytes n v) = v mod 256 ^ Z.of_nat n.
Proof.
  induction n as [|n IH]; intros v.
  - simpl. now rewrite Z.mod_1_r.
  - cbn [le_bytes le_value].
    rewrite IH, Z_of_byte_of_Z by (apply Z.mod_pos_bound; lia).
    rewrite Nat2Z.inj_succ, Z.pow_succ_r by lia.
    rewrite Z.rem_mul_r by lia. reflexivity.
Qed.

Lemma ordered_twice (bo : byte_order) (bs : list byte) :
  ordered bo (ordered bo bs) = bs.
Proof. destruct bo; simpl; auto using rev_involutive. Qed.

Lemma length_ordered (bo : byte_order) (bs : list byte) :
  List.length (ordered bo bs) = List.length bs.
Proof. destruct bo; simpl; auto using length_rev. Qed.

Lemma pow_256 (n : nat) : 256 ^ Z.of_nat n = 2 ^ (8 * Z.of_nat n).
Proof. change 256 with (2 ^ 8). rewrite <- Z.pow_mul_r by lia. reflexivity. Qed.

(** Packing one integer and reading it back. *)
Lemma unpack_pack_int (bo : byte_order) (n : nat) (v : Z) (bs : list byte) :
  (0 < n)%nat ->
  pack_int bo n v = Ok bs ->
  List.length bs = n /\ unpack_int bo n bs = v.
Proof.
  intros Hn. unfold pack_int, unpack_int.
  set (half := 2 ^ (8 * Z.of_nat n - 1)).
  destruct ((- half <=? v) && (v <? half)) eqn:Hr; [|discriminate].
  intros H; inversion H; subst bs; clear H.
  apply andb_true_iff in Hr. destruct Hr as [Hlo Hhi].
  apply Z.leb_le in Hlo. apply Z.ltb_lt in Hhi.
  split; [now rewrite length_ordered, length_le_bytes|].
  rewrite ordered_twice, le_value_le_bytes, pow_256.
  assert (Hpow : 2 ^ (8 * Z.of_nat n) = 2 * half).
  { unfold half. rewrite <- Z.pow_succ_r by lia. f_equal. lia. }
  assert (Hhalf : 0 < half) by (apply Z.pow_pos_nonneg; lia).
  rewrite Hpow.
  destruct (Z.neg_nonneg_cases v) as [Hneg|Hpos].
  - assert (Hm : v mod (2 * half) = v + 2 * half)
      by (symmetry; apply Z.mod_unique with (q := -1); lia).
    rewrite Hm.
    destruct (v + 2 * half <? half) eqn:E; [apply Z.ltb_lt in E|]; lia.
  - rewrite Z.mod_small by lia.
    destruct (v <? half) eqn:E; [|apply Z.ltb_ge in E]; lia.
Qed.

Lemma pack_int_in_range (bo : byte_order) (n : nat) (v : Z) :
  - 2 ^ (8 * Z.of_nat n - 1) <= v < 2 ^ (8 * Z.of_nat n - 1) ->
  pack_int bo n v = Ok (ordered bo (le_bytes n v)).
Proof.
  intros H. unfold pack_int.
  replace (- 2 ^ (8 * Z.of_nat n - 1) <=? v) with true by (symmetry; apply Z.leb_le; lia).
  replace (v <? 2 ^ (8 * Z.of_nat n - 1)) with true by (symmetry; apply Z.ltb_lt; lia).
  reflexivity.
Qed.

Lemma item_size_pos (c : ascii) (n : nat) : item_size c = Some n -> (0 < n)%nat.
Proof.
  unfold item_size. repeat (destruct (Ascii.eqb c _)); intros H; inversion H; lia.
Qed.

Lemma unpack_pack_items (bo : byte_order) (codes : list ascii) :
  forall vals bs, pack_items bo codes vals = Ok bs ->
  List.length bs = items_size codes /\ unpack_items bo codes bs = Ok vals.
Proof.
  induction codes as [|c codes IH]; intros vals bs; simpl.
  - destruct vals; [|discriminate]. intros H; inversion H; auto.
  - destruct vals as [|v vals]; [discriminate|].
    destruct (item_size c) as [n|] eqn:Hc; [|discriminate].
    destruct (pack_int bo n v) as [b| |] eqn:Hb; try discriminate.
    destruct (pack_items bo codes vals) as [r| |] eqn:Hr; try discriminate.
    simpl. intros H; inversion H; subst bs; clear H.
    apply unpack_pack_int in Hb; [|eapply item_size_pos; eauto].
    destruct Hb as [Hlen Hval]. destruct (IH _ _ Hr) as [Hlr Hur].
    split; [rewrite length_app; lia|].
    replace (List.length (b ++ r) <? n)%nat with false
      by (symmetry; apply Nat.ltb_ge; rewrite length_app; lia).
    subst n.
    rewrite skipn_app, skipn_all, Nat.sub_diag, firstn_app, firstn_all, Nat.sub_diag.
    simpl. rewrite app_nil_r, Hur. simpl. now rewrite Hval.
Qed.

(** The range a sample of an encoding may take fits its item code. *)
Lemma pack_pair (bo : byte_order) (c : ascii) (n : nat) (lv rv : Z) :
  item_size c = Some n ->
  - 2 ^ (8 * Z.of_nat n - 1) <= lv < 2 ^ (8 * Z.of_nat n - 1) ->
  - 2 ^ (8 * Z.of_nat n - 1) <= rv < 2 ^ (8 * Z.of_nat n - 1) ->
  pack_items bo [c; c] [lv; rv]
  = Ok (ordered bo (le_bytes n lv) ++ ordered bo (le_bytes n rv) ++ [])%list.
Proof.
  intros Hc Hl Hr. simpl. rewrite Hc.
  rewrite !pack_int_in_range by assumption. reflexivity.
Qed.

Lemma pack_in_range (e : encoding) (lv rv : Z) :
  In e encodings ->
  - maxv e <= lv <= maxv e ->
  - maxv e <= rv <= maxv e ->
  exists bs, pack (fmt e) [lv; rv] = Ok bs.
Proof.
  intros He Hl Hr. simpl in He.
  destruct He as [<-|[<-|[<-|[<-|[]]]]]; simpl in Hl, Hr;
    unfold pack; cbn [fmt byte_order_of Ascii.eqb Bool.eqb list_ascii_of_string];
    eexists; eapply pack_pair; try reflexivity; simpl; lia.
Qed.

Lemma pack_length (e : encoding) (vals : list Z) (bs : list byte) :
  In e encodings ->
  pack (fmt e) vals = Ok bs ->
  Z.of_nat (List.length bs) = 2 * sbs e.
Proof.
  intros He. simpl in He.
  destruct He as [<-|[<-|[<-|[<-|[]]]]];
    unfold pack; cbn [fmt byte_order_of Ascii.eqb Bool.eqb list_ascii_of_string];
    intros H; apply unpack_pack_items in H; destruct H as [H _];
    rewrite H; reflexivity.
Qed.

(** C7: for each of the four encodings and every pair of integers within
    [-maxv, maxv], packing the pair succeeds, gives 2 * sbs bytes, and
    unpacking those bytes with the same format string gives the pair back. *)
Theorem pack_unpack_round_trip (e : encoding) (lv rv : Z) :
  In e encodings ->
  - maxv e <= lv <= maxv e ->
  - maxv e <= rv <= maxv e ->
  exists bs,
    pack (fmt e) [lv; rv] = Ok bs /\
    Z.of_nat (List.length bs) = 2 * sbs e /\
    unpack (fmt e) bs = Ok [lv; rv].
Proof.
  intros He Hl Hr.
  destruct (pack_in_range e lv rv He Hl Hr) as [bs Hbs].
  exists bs. split; [assumption|]. split; [eapply pack_length; eauto|].
  simpl in He.
  destruct He as [<-|[<-|[<-|[<-|[]]]]];
    unfold pack, unpack in *;
    cbn [fmt byte_order_of Ascii.eqb Bool.eqb list_ascii_of_string] in *;
    apply unpack_pack_items in Hbs; apply Hbs.
Qed.

Lemma pack_unpack_round_trip_witness :
  exists bs,
    pack "<hh" [-32767; 12345] = Ok bs /\
    Z.of_nat (List.length bs) = 2 * 2 /\
    unpack "<hh" bs = Ok [-32767; 12345].
Proof.
  apply (pack_unpack_round_trip (mkEncoding "<hh" 32767 2) (-32767) 12345).
  - simpl; auto.
  - simpl; lia.
  - simpl; lia.
Defined.

(** ** Lists of chunks of one width *)

Lemma length_concat_uniform {A : Type} (w : nat) (chunks : list (list A)) :
  Forall (fun c => List.length c = w) chunks ->
  List.length (List.concat chunks) = (List.length chunks * w)%nat.
Proof.
  induction 1 as [|c chunks Hc _ IH]; simpl; [reflexivity|].
  rewrite length_app, IH, Hc. reflexivity.
Qed.

Lemma frame_concat (w : nat) (chunks : list (list byte)) :
  Forall (fun c => List.length c = w) chunks ->
  forall k, (k < List.length chunks)%nat ->
  frame w (List.concat chunks) k = nth k chunks [].
Proof.
  unfold frame.
  induction 1 as [|c chunks Hc _ IH]; intros k Hk; simpl in Hk; [lia|].
  destruct k as [|k]; simpl.
  - rewrite firstn_app, <- Hc, firstn_all, Nat.sub_diag. simpl.
    now rewrite app_nil_r.
  - rewrite skipn_app, Hc.
    rewrite (skipn_all2 c) by lia.
    replace (w + k * w - w)%nat with (k * w)%nat by lia.
    simpl. apply IH. lia.
Qed.

Lemma nth_flat_map_repeat {A B : Type} (g : A -> B) (n : nat) (l : list A)
  (da : A) (db : B) :
  forall i j, (i < List.length l)%nat -> (j < n)%nat ->
  nth (i * n + j) (flat_map (fun x => repeat (g x) n) l) db = g (nth i l da).
Proof.
  induction l as [|a l IH]; intros i j Hi Hj; simpl in Hi; [lia|].
  destruct i as [|i]; simpl.
  - rewrite app_nth1 by (rewrite repeat_length; lia). apply nth_repeat_lt. lia.
  - rewrite app_nth2 by (rewrite repeat_length; lia).
    rewrite repeat_length.
    replace (n + i * n + j - n)%nat with (i * n + j)%nat by lia.
    apply IH; lia.
Qed.

Lemma concat_map_concat {A B : Type} (g : A -> list (list B)) (l : list A) :
  List.concat (map (fun x => List.concat (g x)) l) = List.concat (flat_map g l).
Proof.
  induction l as [|a l IH]; simpl; [reflexivity|].
  now rewrite concat_app, IH.
Qed.

Lemma length_count_from (n : nat) : forall s, List.length (count_from s n) = n.
Proof. induction n; intros s; simpl; auto. Qed.

Lemma nth_count_from (n : nat) :
  forall s i d, (i < n)%nat -> nth i (count_from s n) d = s + Z.of_nat i.
Proof.
  induction n as [|n IH]; intros s i d Hi; [lia|].
  destruct i as [|i]; simpl count_from; cbn [nth]; [lia|].
  rewrite IH by lia. lia.
Qed.

Lemma In_count_from (n : nat) :
  forall s i, In i (count_from s n) -> s <= i < s + Z.of_nat n.
Proof.
  induction n as [|n IH]; intros s i; simpl; [tauto|].
  intros [<-|H]; [lia|]. apply IH in H. lia.
Qed.

Lemma In_xrange (n i : Z) : In i (xrange n) -> 0 <= i < n.
Proof. intros H. apply In_count_from in H. lia. Qed.

Lemma length_xrange (n : Z) : List.length (xrange n) = Z.to_nat n.
Proof. apply length_count_from. Qed.

(** ** join *)

Lemma join_map_Ok {A : Type} (f : A -> outcome (list byte))
  (g : A -> list byte) (l : list A) :
  (forall x, In x l -> f x = Ok (g x)) ->
  join (map f l) = Ok (List.concat (map g l)).
Proof.
  induction l as [|a l IH]; intros H; simpl; [reflexivity|].
  rewrite (H a) by (simpl; auto). simpl.
  rewrite IH by (intros x Hx; apply H; simpl; auto). reflexivity.
Qed.

Lemma join_length (w : nat) (parts : list (outcome (list byte))) :
  (forall p bs, In p parts -> p = Ok bs -> List.length bs = w) ->
  forall data, join parts = Ok data ->
  List.length data = (List.length parts * w)%nat.
Proof.
  induction parts as [|p parts IH]; intros H data; simpl.
  - intros E; inversion E; reflexivity.
  - destruct p as [b| |] eqn:Hp; simpl; try discriminate.
    destruct (join parts) as [r| |] eqn:Hr; simpl; try discriminate.
    intros E; inversion E; subst data.
    rewrite length_app, (H (Ok b) b), (IH (fun p bs Hin => H p bs (or_intror Hin)) r);
      simpl; auto.
Qed.

(** [join] raises only what one of its parts raises. *)
Lemma join_raises (parts : list (outcome (list byte))) (e : exn) :
  join parts = Raise e -> In (Raise e) parts.
Proof.
  induction parts as [|p parts IH]; simpl; [discriminate|].
  destruct p as [b|e'|]; simpl; try discriminate.
  - destruct (join parts) as [r|e'|]; simpl; try discriminate.
    intros E; inversion E; subst. right. now apply IH.
  - intros E; inversion E; subst. now left.
Qed.

(** ** Bit patterns *)

Lemma get_in_range (s : string) :
  forall n, (n < String.length s)%nat -> exists c, String.get n s = Some c.
Proof.
  induction s as [|a s IH]; intros n Hn; simpl in Hn; [lia|].
  destruct n as [|n]; simpl; [now exists a|]. apply IH. lia.
Qed.

Lemma pack_raises (fmt : string) (vals : list Z) (x : exn) :
  pack fmt vals = Raise x -> x = StructError.
Proof.
  unfold pack. destruct fmt as [|c codes]; [intros H; now inversion H|].
  destruct (byte_order_of c) as [bo|]; [|intros H; now inversion H].
  generalize (list_ascii_of_string codes). intros l. revert vals.
  induction l as [|a l IH]; intros vals; simpl.
  - destruct vals; [discriminate|intros H; now inversion H].
  - destruct vals as [|v vals]; [intros H; now inversion H|].
    destruct (item_size a) as [n|]; [|intros H; now inversion H].
    unfold pack_int.
    destruct (_ && _); simpl; [|intros H; now inversion H].
    destruct (pack_items bo l vals) as [r|x'|] eqn:Hr; simpl; try discriminate.
    intros H; inversion H; subst. now apply (IH vals).
Qed.

Lemma get_data_for_bits_slots (e : encoding) (rate bitrate : Z) (bits : string)
  (lo hi : list byte) :
  bitrate <> 0 ->
  rate mod bitrate = 0 ->
  0 < Z.of_nat (String.length bits) <= bitrate ->
  pack (fmt e) [- maxv e; - maxv e] = Ok lo ->
  pack (fmt e) [maxv e; maxv e] = Ok hi ->
  get_data_for_bits e rate bitrate bits
  = Ok (List.concat (slots lo hi (rate / bitrate) bitrate bits)).
Proof.
  intros Hb Hm Hs Hlo Hhi. unfold get_data_for_bits, slots.
  replace (bitrate =? 0) with false by (symmetry; apply Z.eqb_neq; lia).
  rewrite Hm. simpl negb. cbv iota.
  replace (Z.of_nat (String.length bits) >? bitrate) with false
    by (symmetry; rewrite Z.gtb_ltb; apply Z.ltb_ge; lia).
  rewrite Hlo, Hhi. simpl bind.
  apply join_map_Ok. intros i Hi. apply In_xrange in Hi.
  replace (Z.of_nat (String.length bits) =? 0) with false
    by (symmetry; apply Z.eqb_neq; lia).
  unfold slot_is_low, not_in_0_nul.
  destruct (get_in_range bits (Z.to_nat (i mod Z.of_nat (String.length bits))))
    as [c Hc].
  { pose proof (Z.mod_pos_bound i (Z.of_nat (String.length bits))). lia. }
  rewrite Hc. now destruct (_ || _).
Qed.

Lemma frames_of_slots (g : Z -> list byte) (n w : nat) (l : list Z) :
  (forall i, List.length (g i) = w) ->
  let data := List.concat (map (fun i => List.concat (repeat (g i) n)) l) in
  List.length data = (List.length l * n * w)%nat /\
  forall i j, (i < List.length l)%nat -> (j < n)%nat ->
    frame w data (i * n + j) = g (nth i l 0).
Proof.
  intros Hg data. subst data.
  rewrite (concat_map_concat (fun i => repeat (g i) n)).
  assert (Hall : Forall (fun c => List.length c = w)
                        (flat_map (fun i => repeat (g i) n) l)).
  { apply Forall_flat_map, Forall_forall. intros i _.
    apply Forall_forall. intros c Hc. apply repeat_spec in Hc. now subst c. }
  assert (Hlen : List.length (flat_map (fun i => repeat (g i) n) l)
                 = (List.length l * n)%nat).
  { rewrite (flat_map_constant_length (c := n)); [lia|].
    intros; apply repeat_length. }
  split.
  - rewrite (length_concat_uniform w) by assumption. now rewrite Hlen.
  - intros i j Hi Hj.
    rewrite (frame_concat w); [|assumption|rewrite Hlen; nia].
    now apply nth_flat_map_repeat.
Qed.

(** Where the frames of a bit-pattern buffer lie: slot [i] is [rss]
    frames, all low or all high as the symbol of the slot says. *)
Lemma get_data_for_bits_frames (e : encoding) (rate bitrate : Z) (bits : string)
  (lo hi : list byte) (w : nat) :
  bitrate <> 0 ->
  rate mod bitrate = 0 ->
  0 < Z.of_nat (String.length bits) <= bitrate ->
  pack (fmt e) [- maxv e; - maxv e] = Ok lo ->
  pack (fmt e) [maxv e; maxv e] = Ok hi ->
  List.length lo = w -> List.length hi = w ->
  exists data,
    get_data_for_bits e rate bitrate bits = Ok data /\
    List.length data = (Z.to_nat bitrate * Z.to_nat (rate / bitrate) * w)%nat /\
    forall i j, (i < Z.to_nat bitrate)%nat -> (j < Z.to_nat (rate / bitrate))%nat ->
      frame w data (i * Z.to_nat (rate / bitrate) + j)
      = if slot_is_low bits (Z.of_nat i) then lo else hi.
Proof.
  intros Hb Hm Hs Hlo Hhi Hwlo Hwhi.
  eexists. split; [now apply get_data_for_bits_slots with (lo := lo) (hi := hi)|].
  unfold slots, str_mul.
  destruct (frames_of_slots (fun i => if slot_is_low bits i then lo else hi)
              (Z.to_nat (rate / bitrate)) w (xrange bitrate)) as [Hlen Hfr].
  { intros i. now destruct (slot_is_low bits i). }
  rewrite length_xrange in Hlen, Hfr.
  split; [exact Hlen|].
  intros i j Hi Hj. rewrite (Hfr i j Hi Hj).
  unfold xrange. rewrite nth_count_from by assumption. reflexivity.
Qed.

(** C2: for each encoding, the buffer of pattern ["01"] at 1200 bits per
    second and 48000 frames per second is 1200 slots of 40 frames; every
    frame of slot [i] is the low frame (both channels [-maxv]) when symbol
    [i mod 2] of the pattern is ['0'] or a null byte and the high frame (both
    channels [maxv]) otherwise, so frames 0..39 are low, frames 40..79 are
    high, and so on. *)
Theorem square_pattern_layout (e : encoding) :
  In e encodings ->
  exists lo hi data,
    pack (fmt e) [- maxv e; - maxv e] = Ok lo /\
    pack (fmt e) [maxv e; maxv e] = Ok hi /\
    get_data_for_bits e 48000 1200 "01" = Ok data /\
    Z.of_nat (List.length data) = 1200 * 40 * (2 * sbs e) /\
    (forall i j, (i < 1200)%nat -> (j < 40)%nat ->
       frame (Z.to_nat (2 * sbs e)) data (i * 40 + j)
       = if slot_is_low "01" (Z.of_nat i) then lo else hi) /\
    (forall i, slot_is_low "01" (Z.of_nat i) = (Z.of_nat i mod 2 =? 0)) /\
    (forall j, (j < 40)%nat ->
       frame (Z.to_nat (2 * sbs e)) data j = lo /\
       frame (Z.to_nat (2 * sbs e)) data (40 + j) = hi).
Proof.
  intros He.
  destruct (pack_in_range e (- maxv e) (- maxv e) He) as [lo Hlo];
    [simpl in He; destruct He as [<-|[<-|[<-|[<-|[]]]]]; simpl; lia ..|].
  destruct (pack_in_range e (maxv e) (maxv e) He) as [hi Hhi];
    [simpl in He; destruct He as [<-|[<-|[<-|[<-|[]]]]]; simpl; lia ..|].
  pose proof (pack_length e _ _ He Hlo) as Hwlo.
  pose proof (pack_length e _ _ He Hhi) as Hwhi.
  destruct (get_data_for_bits_frames e 48000 1200 "01" lo hi (Z.to_nat (2 * sbs e)))
    as [data [Hdata [Hlen Hfr]]];
    try reflexivity; try assumption; try lia; [simpl; lia|].
  change (Z.to_nat (48000 / 1200)) with 40%nat in Hlen, Hfr.
  change (Z.to_nat 1200) with 1200%nat in Hlen, Hfr.
  assert (Hlow : forall i, slot_is_low "01" (Z.of_nat i) = (Z.of_nat i mod 2 =? 0)).
  { intros i. unfold slot_is_low. simpl String.length.
    change (Z.of_nat 2) with 2.
    pose proof (Z.mod_pos_bound (Z.of_nat i) 2 eq_refl) as Hb.
    assert (Hc : Z.of_nat i mod 2 = 0 \/ Z.of_nat i mod 2 = 1) by lia.
    destruct Hc as [-> | ->]; reflexivity. }
  exists lo, hi, data.
  refine (conj Hlo (conj Hhi (conj Hdata (conj _ (conj Hfr (conj Hlow _)))))).
  - rewrite Hlen. lia.
  - intros j Hj. split.
    + exact (Hfr 0%nat j ltac:(lia) Hj).
    + exact (Hfr 1%nat j ltac:(lia) Hj).
Qed.

Lemma square_pattern_layout_witness :
  exists lo hi data,
    pack "<hh" [- 32767; - 32767] = Ok lo /\
    pack "<hh" [32767; 32767] = Ok hi /\
    get_data_for_bits (mkEncoding "<hh" 32767 2) 48000 1200 "01" = Ok data /\
    Z.of_nat (List.length data) = 1200 * 40 * (2 * 2) /\
    (forall i j, (i < 1200)%nat -> (j < 40)%nat ->
       frame 4 data (i * 40 + j)
       = if slot_is_low "01" (Z.of_nat i) then lo else hi) /\
    (forall i, slot_is_low "01" (Z.of_nat i) = (Z.of_nat i mod 2 =? 0)) /\
    (forall j, (j < 40)%nat ->
       frame 4 data j = lo /\ frame 4 data (40 + j) = hi).
Proof.
  apply (square_pattern_layout (mkEncoding "<hh" 32767 2)).
  simpl; auto.
Defined.

(** C3: for a bit rate other than zero, [get_data_for_bits] raises a
    [ValueError] exactly when the rate is not a multiple of the bit rate or
    the pattern is longer than the bit rate: the first check raises
    'Invalid rate ..., must be a multiple of ...', the second, reached when
    the first passes, 'Too many bits of data.'; when both checks pass no
    [ValueError] is raised. *)
Theorem bit_pattern_value_errors (e : encoding) (rate bitrate : Z) (bits : string) :
  bitrate <> 0 ->
  (rate mod bitrate <> 0 ->
   get_data_for_bits e rate bitrate bits
   = Raise (ValueError (invalid_rate rate bitrate))) /\
  (rate mod bitrate = 0 -> Z.of_nat (String.length bits) > bitrate ->
   get_data_for_bits e rate bitrate bits = Raise (ValueError too_many_bits)) /\
  ((exists msg, get_data_for_bits e rate bitrate bits = Raise (ValueError msg))
   <-> rate mod bitrate <> 0 \/ Z.of_nat (String.length bits) > bitrate).
Proof.
  intros Hb.
  assert (H1 : rate mod bitrate <> 0 ->
               get_data_for_bits e rate bitrate bits
               = Raise (ValueError (invalid_rate rate bitrate))).
  { intros Hm. unfold get_data_for_bits.
    replace (bitrate =? 0) with false by (symmetry; apply Z.eqb_neq; lia).
    replace (rate mod bitrate =? 0) with false by (symmetry; apply Z.eqb_neq; lia).
    reflexivity. }
  assert (H2 : rate mod bitrate = 0 -> Z.of_nat (String.length bits) > bitrate ->
               get_data_for_bits e rate bitrate bits
               = Raise (ValueError too_many_bits)).
  { intros Hm Hs. unfold get_data_for_bits.
    replace (bitrate =? 0) with false by (symmetry; apply Z.eqb_neq; lia).
    rewrite Hm. simpl negb. cbv iota.
    replace (Z.of_nat (String.length bits) >? bitrate) with true
      by (symmetry; rewrite Z.gtb_ltb; apply Z.ltb_lt; lia).
    reflexivity. }
  split; [exact H1|]. split; [exact H2|]. split.
  - intros [msg Hmsg].
    destruct (Z.eq_dec (rate mod bitrate) 0) as [Hm|Hm]; [|now left].
    destruct (Z_gt_dec (Z.of_nat (String.length bits)) bitrate) as [Hs|Hs];
      [now right|].
    exfalso. revert Hmsg. unfold get_data_for_bits.
    replace (bitrate =? 0) with false by (symmetry; apply Z.eqb_neq; lia).
    rewrite Hm. simpl negb. cbv iota.
    replace (Z.of_nat (String.length bits) >? bitrate) with false
      by (symmetry; rewrite Z.gtb_ltb; apply Z.ltb_ge; lia).
    destruct (pack (fmt e) [- maxv e; - maxv e]) as [lo|x|] eqn:Hlo; simpl;
      [|intros H; inversion H; subst; apply pack_raises in Hlo; discriminate
       |discriminate].
    destruct (pack (fmt e) [maxv e; maxv e]) as [hi|x|] eqn:Hhi; simpl;
      [|intros H; inversion H; subst; apply pack_raises in Hhi; discriminate
       |discriminate].
    intros H. apply join_raises, in_map_iff in H. destruct H as [i [H _]].
    destruct (_ =? 0); [discriminate|].
    destruct (String.get _ bits); discriminate.
  - intros [Hm|Hs].
    + eexists. now apply H1.
    + destruct (Z.eq_dec (rate mod bitrate) 0) as [Hm|Hm].
      * eexists. now apply H2.
      * eexists. now apply H1.
Qed.

Lemma bit_pattern_value_errors_witness :
  get_data_for_bits (mkEncoding "<hh" 32767 2) 48001 1200 "01"
  = Raise (ValueError "Invalid rate 48001, must be a multiple of 1200.").
Proof.
  apply (proj1 (bit_pattern_value_errors
                  (mkEncoding "<hh" 32767 2) 48001 1200 "01" ltac:(lia))).
  vm_compute. discriminate.
Defined.

Lemma xrange_pos (n : Z) : 0 < n -> exists l, xrange n = 0 :: l.
Proof.
  intros Hn. unfold xrange.
  destruct (Z.to_nat n) as [|k] eqn:E; [lia|]. simpl. eauto.
Qed.

(** C9: an empty pattern passes both checks of [get_data_for_bits] when the
    rate is a multiple of the (positive) bit rate, and the first slot then
    evaluates [0 % 0]: the call ends with [ZeroDivisionError], not with a
    [ValueError].  The tune [bits:] reaches this through line 134. *)
Theorem empty_pattern_divides_by_zero (e : encoding) (r bitrate : Z) :
  In e encodings ->
  0 < bitrate ->
  r mod bitrate = 0 ->
  get_data_for_bits e r bitrate "" = Raise ZeroDivisionError /\
  split_once ":" "bits:" = ["bits"; ""] /\
  forall isin isin4,
    generate isin isin4 e 48000 "bits:" = Raise ZeroDivisionError /\
    prepare isin isin4 ["miniplay.py"; "-T"; "bits:"] = Raise ZeroDivisionError.
Proof.
  intros He Hb Hm.
  assert (Hmaxv : 0 <= maxv e)
    by (simpl in He; destruct He as [<-|[<-|[<-|[<-|[]]]]]; simpl; lia).
  assert (H : forall r bitrate, 0 < bitrate -> r mod bitrate = 0 ->
              get_data_for_bits e r bitrate "" = Raise ZeroDivisionError).
  { clear r bitrate Hb Hm. intros r bitrate Hb Hm.
    unfold get_data_for_bits.
    replace (bitrate =? 0) with false by (symmetry; apply Z.eqb_neq; lia).
    rewrite Hm. simpl negb. cbv iota. simpl String.length.
    replace (Z.of_nat 0 >? bitrate) with false
      by (symmetry; rewrite Z.gtb_ltb; apply Z.ltb_ge; lia).
    destruct (pack_in_range e (- maxv e) (- maxv e) He) as [lo ->]; try lia.
    destruct (pack_in_range e (maxv e) (maxv e) He) as [hi ->]; try lia.
    destruct (xrange_pos bitrate Hb) as [l ->]. reflexivity. }
  split; [now apply H|]. split; [reflexivity|].
  intros isin isin4.
  assert (Hg : generate isin isin4 e 48000 "bits:" = Raise ZeroDivisionError)
    by (unfold generate; simpl; now apply H).
  split; [exact Hg|].
  vm_compute. reflexivity.
Qed.

Lemma empty_pattern_divides_by_zero_witness :
  get_data_for_bits (mkEncoding "<hh" 32767 2) 48000 1200 ""
  = Raise ZeroDivisionError.
Proof.
  apply (proj1 (empty_pattern_divides_by_zero
                  (mkEncoding "<hh" 32767 2) 48000 1200
                  ltac:(simpl; auto) ltac:(lia) ltac:(reflexivity))).
Defined.

(** ** The length of the buffer *)

Lemma sbs_pos (e : encoding) : In e encodings -> 0 < sbs e.
Proof.
  intros He. simpl in He. destruct He as [<-|[<-|[<-|[<-|[]]]]]; simpl; lia.
Qed.

Lemma length_str_mul (s : list byte) (n : Z) :
  List.length (str_mul s n) = (Z.to_nat n * List.length s)%nat.
Proof.
  unfold str_mul. rewrite (length_concat_uniform (List.length s)).
  - now rewrite repeat_length.
  - apply Forall_forall. intros c Hc. apply repeat_spec in Hc. now subst.
Qed.

(** One packed frame for each index of [xrange(n)]. *)
Lemma frames_length (e : encoding) (n : Z) (lv rv : Z -> Z) (data : list byte) :
  In e encodings ->
  join (map (fun i => pack (fmt e) [lv i; rv i]) (xrange n)) = Ok data ->
  Z.of_nat (List.length data) = Z.max 0 n * sbs e * 2.
Proof.
  intros He H. pose proof (sbs_pos e He) as Hs.
  apply (join_length (Z.to_nat (2 * sbs e))) in H.
  - rewrite H, length_map, length_xrange. lia.
  - intros p bs Hp Hbs. apply in_map_iff in Hp. destruct Hp as [i [Hi _]].
    subst p. apply (pack_length e) in Hbs; [lia|assumption].
Qed.

Lemma bits_length (e : encoding) (r bitrate : Z) (bits : string) (data : list byte) :
  In e encodings ->
  0 <= r -> 0 < bitrate ->
  get_data_for_bits e r bitrate bits = Ok data ->
  Z.of_nat (List.length data) = r * sbs e * 2.
Proof.
  intros He Hr Hb. pose proof (sbs_pos e He) as Hs.
  unfold get_data_for_bits.
  destruct (bitrate =? 0); [discriminate|].
  destruct (r mod bitrate =? 0) eqn:Hm; [|discriminate].
  apply Z.eqb_eq in Hm. simpl negb. cbv iota.
  destruct (_ >? bitrate); [discriminate|].
  destruct (pack (fmt e) [- maxv e; - maxv e]) as [lo| |] eqn:Hlo; try discriminate.
  destruct (pack (fmt e) [maxv e; maxv e]) as [hi| |] eqn:Hhi; try discriminate.
  apply (pack_length e) in Hlo, Hhi; try assumption.
  simpl bind. intros H.
  apply (join_length (Z.to_nat (r / bitrate) * Z.to_nat (2 * sbs e))) in H.
  - rewrite H, length_map, length_xrange.
    assert (Hd : r = bitrate * (r / bitrate)) by (apply Z.div_exact; lia).
    assert (0 <= r / bitrate) by (apply Z.div_pos; lia).
    nia.
  - intros p bs Hp Hbs. apply in_map_iff in Hp. destruct Hp as [i [Hi _]].
    subst p. destruct (_ =? 0); [discriminate|].
    destruct (String.get _ bits) as [c|]; [|discriminate].
    inversion Hbs; subst bs. rewrite length_str_mul.
    destruct (not_in_0_nul c); f_equal; lia.
Qed.

Lemma parse_loop_raises (fuel : nat) :
  forall argv i o x, parse_loop fuel argv i o = Raise x ->
  exists m, x = RuntimeError m.
Proof.
  induction fuel as [|fuel IH]; intros argv i o x; simpl; [discriminate|].
  destruct (i <? List.length argv)%nat; [|discriminate].
  destruct (item argv i == "-"); [discriminate|].
  destruct (item argv i == "--"); [discriminate|].
  repeat (destruct (_ && _); [apply IH|]).
  intros H; inversion H; eauto.
Qed.

Lemma parse_args_raises (argv : list string) (x : exn) :
  parse_args argv = Raise x -> exists m, x = RuntimeError m.
Proof.
  unfold parse_args.
  destruct (parse_loop _ argv 1 default_options) as [[i o]|y|] eqn:E; simpl.
  - destruct (negb _); [|discriminate]. intros H; inversion H; eauto.
  - intros H; inversion H; subst. eapply parse_loop_raises; eauto.
  - discriminate.
Qed.

Lemma frames_raise (f : string) (n : Z) (lv rv : Z -> Z) (x : exn) :
  join (map (fun i => pack f [lv i; rv i]) (xrange n)) = Raise x ->
  x = StructError.
Proof.
  intros H. apply join_raises, in_map_iff in H. destruct H as [i [H _]].
  now apply pack_raises in H.
Qed.

Lemma bits_raise (e : encoding) (r bitrate : Z) (bits : string) (x : exn) :
  get_data_for_bits e r bitrate bits = Raise x -> x <> AssertionError.
Proof.
  unfold get_data_for_bits.
  destruct (bitrate =? 0); [intros H; inversion H; discriminate|].
  destruct (negb _); [intros H; inversion H; discriminate|].
  destruct (_ >? bitrate); [intros H; inversion H; discriminate|].
  destruct (pack (fmt e) [- maxv e; - maxv e]) as [lo|y|] eqn:Hlo; simpl;
    [|intros H; inversion H; subst; apply pack_raises in Hlo; subst; discriminate
     |discriminate].
  destruct (pack (fmt e) [maxv e; maxv e]) as [hi|y|] eqn:Hhi; simpl;
    [|intros H; inversion H; subst; apply pack_raises in Hhi; subst; discriminate
     |discriminate].
  intros H. apply join_raises, in_map_iff in H. destruct H as [i [H _]].
  destruct (_ =? 0); [inversion H; discriminate|].
  destruct (String.get _ bits); inversion H; discriminate.
Qed.

Section Generation.

Variables isin isin4 : Z -> Z -> Z -> Z.

Lemma generate_length (e : encoding) (r : Z) (tune : string) (data : list byte) :
  In e encodings ->
  0 <= r ->
  generate isin isin4 e r tune = Ok data ->
  Z.of_nat (List.length data) = r * sbs e * 2.
Proof.
  intros He Hr. unfold generate.
  destruct (r =? 0); [discriminate|].
  replace r with (Z.max 0 r) at 6 by lia.
  destruct ((tune == "sin") || (tune == "sine")); [now apply frames_length|].
  destruct (tune == "sinlh"); [now apply frames_length|].
  destruct (tune == "sinl"); [now apply (frames_length e r _ (fun _ => 0))|].
  destruct (tune == "sinh"); [now apply (frames_length e r (fun _ => 0))|].
  replace (Z.max 0 r) with r by lia.
  destruct (tune == "square"); [apply bits_length; auto; lia|].
  destruct (prefix "bits:" tune); [|discriminate].
  destruct (split_once ":" tune) as [|? [|bits ?]]; try discriminate.
  apply bits_length; auto; lia.
Qed.

Lemma generate_raises (e : encoding) (r : Z) (tune : string) (x : exn) :
  generate isin isin4 e r tune = Raise x -> x <> AssertionError.
Proof.
  unfold generate.
  destruct (r =? 0); [intros H; inversion H; discriminate|].
  repeat (match goal with
          | |- context [if ?c then join _ else _] =>
            destruct c; [intros H; apply frames_raise in H; subst; discriminate|]
          end).
  destruct (tune == "square"); [apply bits_raise|].
  destruct (prefix "bits:" tune); [|intros H; inversion H; discriminate].
  destruct (split_once ":" tune) as [|? [|bits ?]];
    try (intros H; inversion H; discriminate).
  apply bits_raise.
Qed.

(** C1: whenever generation succeeds, for any of the four encodings, any
    tune and any rate that is not negative, the buffer is exactly
    [rate * sbs * 2] bytes long.  Line 137 asserts it: [assert_length]
    passes exactly on that length and raises [AssertionError] on any other,
    so [main] goes past line 137 only with a buffer of 48000 * sbs * 2
    bytes, and it always does: the assertion never fails. *)
Theorem buffer_length_exact :
  (forall e r tune data,
     In e encodings -> 0 <= r ->
     generate isin isin4 e r tune = Ok data ->
     Z.of_nat (List.length data) = r * sbs e * 2) /\
  (forall data r n,
     Z.of_nat (List.length data) <> r * n * 2 ->
     assert_length data r n = Raise AssertionError) /\
  (forall argv p,
     prepare isin isin4 argv = Ok p ->
     exists e, In e encodings /\
               select_encoding (nth 4 (cmd p) "") = Ok e /\
               Z.of_nat (List.length (data p)) = 48000 * sbs e * 2) /\
  (forall argv, prepare isin isin4 argv <> Raise AssertionError).
Proof.
  split; [exact generate_length|].
  split.
  { intros data r n H. unfold assert_length.
    destruct (_ =? _) eqn:E; [apply Z.eqb_eq in E; contradiction|reflexivity]. }
  split.
  - intros argv p. unfold prepare.
    destruct (parse_args argv) as [o| |]; simpl; try discriminate.
    destruct (select_encoding _) as [e| |] eqn:He; simpl; try discriminate.
    destruct (generate isin isin4 e rate (tune o)) as [d| |] eqn:Hd; simpl;
      try discriminate.
    unfold assert_length.
    destruct (_ =? _) eqn:E; simpl; [|discriminate].
    intros H; inversion H; subst p; simpl.
    exists e. split; [eapply select_encoding_known; eauto|].
    split; [exact He|]. now apply Z.eqb_eq in E.
  - intros argv. unfold prepare.
    destruct (parse_args argv) as [o|x|] eqn:Ho; simpl; try discriminate.
    2: { apply parse_args_raises in Ho. destruct Ho as [m ->]. discriminate. }
    destruct (select_encoding _) as [e|x|] eqn:He; simpl; try discriminate.
    2: { revert He. unfold select_encoding.
         repeat (destruct (_ == _); [discriminate|]).
         intros H; inversion H; discriminate. }
    destruct (generate isin isin4 e rate (tune o)) as [d|x|] eqn:Hd; simpl;
      try discriminate.
    2: { apply generate_raises in Hd. congruence. }
    apply generate_length in Hd;
      [|eapply select_encoding_known; eauto|unfold rate; lia].
    unfold assert_length. apply Z.eqb_eq in Hd. rewrite Hd. simpl. discriminate.
Qed.

End Generation.

Lemma buffer_length_exact_witness :
  exists data,
    generate silence silence (mkEncoding "<hh" 32767 2) 48000 "square" = Ok data /\
    Z.of_nat (List.length data) = 48000 * 2 * 2.
Proof.
  destruct (get_data_for_bits_frames (mkEncoding "<hh" 32767 2) 48000 1200 "01"
              (ordered LittleEndian (le_bytes 2 (- 32767))
               ++ ordered LittleEndian (le_bytes 2 (- 32767)) ++ [])
              (ordered LittleEndian (le_bytes 2 32767)
               ++ ordered LittleEndian (le_bytes 2 32767) ++ [])
              4)
    as [data [Hdata _]]; try reflexivity; try lia; [simpl; lia|].
  exists data. split; [exact Hdata|].
  apply (proj1 (buffer_length_exact silence silence)
           (mkEncoding "<hh" 32767 2) 48000 "square" data).
  - simpl; auto.
  - lia.
  - exact Hdata.
Defined.

(** ** Playback *)

Lemma write_loop_never_ends (fuel : nat) (env : sink) (data : list byte) :
  forall n a, write_loop fuel env data n <> Ok a.
Proof.
  induction fuel as [|fuel IH]; intros n a; simpl; [discriminate|].
  destruct (write env n data); simpl; try discriminate.
  destruct (flush env n); simpl; try discriminate.
  apply IH.
Qed.

(** The inner [try] statement never completes normally, so the test of
    [exit_code] after it (lines 152-153) is never reached. *)
Lemma write_until_stopped_never_returns (fuel : nat) (env : sink)
  (data : list byte) (code : Z) :
  write_until_stopped fuel env data <> Ok code.
Proof.
  unfold write_until_stopped, try_finally.
  pose proof (write_loop_never_ends fuel env data 0) as H.
  destruct (write_loop fuel env data 0) as [a| |]; simpl.
  - exfalso. now apply (H a).
  - destruct (try_except_pass _ _); simpl; try discriminate.
    destruct (wait env); discriminate.
  - discriminate.
Qed.

(** C8: the [RuntimeError] of line 153 is never raised.  When the sink dies
    with exit status 1 the loop ends with the [IOError] of the failed write,
    the [finally] clause closes the pipe and waits, and the [IOError] goes
    on to the caller; it carries neither the command nor the exit code.  In
    general [play] behaves as the same code without lines 152-153. *)
Theorem sink_failure_not_reported :
  (forall fuel p, (3 <= fuel)%nat -> play fuel dying_sink p = Raise (IOError 32)) /\
  (forall fuel p, (3 <= fuel)%nat -> play fuel interrupted_sink p = Ok tt) /\
  (forall isin isin4,
     main isin isin4 3 dying_sink ["miniplay.py"; "-D"; "default"; "-T"; "square"]
     = Raise (IOError 32)) /\
  (forall fuel env p,
     play fuel env p
     = (_ <- spawn env (cmd p) ;;
        try_except_pass is_KeyboardInterrupt
          (_ <- write_until_stopped fuel env (data p) ;; Ok tt))).
Proof.
  split; [|split; [|split]].
  - intros fuel p Hf.
    destruct fuel as [|[|[|fuel]]]; try lia. reflexivity.
  - intros fuel p Hf.
    destruct fuel as [|[|[|fuel]]]; try lia. reflexivity.
  - intros isin isin4. vm_compute. reflexivity.
  - intros fuel env p. unfold play.
    destruct (spawn env (cmd p)); simpl; try reflexivity.
    pose proof (write_until_stopped_never_returns fuel env (data p)) as H.
    destruct (write_until_stopped fuel env (data p)) as [code| |]; simpl;
      try reflexivity.
    exfalso. now apply (H code).
Qed.

(** * Further properties of the command line *)

Lemma length_flatten_pairs (pairs : list (string * string)) :
  List.length (flatten_pairs pairs) = (2 * List.length pairs)%nat.
Proof.
  unfold flatten_pairs.
  rewrite (flat_map_constant_length (c := 2%nat)) by reflexivity. lia.
Qed.

(** The loop walks over a run of flags with values and is then at the
    argument that follows the run. *)
Lemma parse_loop_pairs (pairs : list (string * string)) :
  forall fuel pre o rest,
  Forall (fun p => In (fst p) value_flags) pairs ->
  parse_loop (List.length pairs + fuel) (pre ++ flatten_pairs pairs ++ rest)
             (List.length pre) o
  = parse_loop fuel (pre ++ flatten_pairs pairs ++ rest)
               (List.length pre + 2 * List.length pairs) (set_options pairs o).
Proof.
  induction pairs as [|[f v] pairs IH]; intros fuel pre o rest Hp.
  - simpl. now rewrite Nat.add_0_r.
  - inversion Hp as [|? ? Hfv Hp']; subst. simpl in Hfv.
    change (flatten_pairs ((f, v) :: pairs)) with (f :: v :: flatten_pairs pairs).
    assert (Hre : (pre ++ (f :: v :: flatten_pairs pairs) ++ rest
                   = (pre ++ [f; v]) ++ flatten_pairs pairs ++ rest)%list)
      by now rewrite <- app_assoc.
    assert (Hlen : S (S (List.length pre)) = List.length (pre ++ [f; v])%list)
      by (rewrite length_app; simpl; lia).
    change (List.length ((f, v) :: pairs) + fuel)%nat
      with (S (List.length pairs + fuel)).
    cbn [parse_loop].
    replace (item (pre ++ (f :: v :: flatten_pairs pairs) ++ rest) (List.length pre))
      with f by (symmetry; apply item_middle).
    replace (item (pre ++ (f :: v :: flatten_pairs pairs) ++ rest)
                  (S (List.length pre)))
      with v by (symmetry; apply item_middle_S).
    replace (List.length pre <?
             List.length (pre ++ (f :: v :: flatten_pairs pairs) ++ rest))%nat
      with true
      by (symmetry; apply Nat.ltb_lt; rewrite length_app; simpl; lia).
    replace (S (List.length pre) <?
             List.length (pre ++ (f :: v :: flatten_pairs pairs) ++ rest))%nat
      with true
      by (symmetry; apply Nat.ltb_lt; rewrite length_app; simpl; lia).
    rewrite !andb_true_r, Hre, Hlen.
    replace (List.length pre + 2 * List.length ((f, v) :: pairs))%nat
      with (List.length (pre ++ [f; v]) + 2 * List.length pairs)%nat
      by (rewrite length_app; simpl; lia).
    destruct Hfv as [<-|[<-|[<-|[]]]]; simpl; apply IH; assumption.
Qed.

(** [parse_args] on a program name, a run of flags with values, and what
    follows the run: one more turn of the loop decides. *)
Lemma parse_args_after_pairs (prog : string) (pairs : list (string * string))
  (rest : list string) :
  Forall (fun p => In (fst p) value_flags) pairs ->
  parse_args (prog :: flatten_pairs pairs ++ rest)
  = (r <- parse_loop (S (S (List.length pairs + List.length rest)))
            (prog :: flatten_pairs pairs ++ rest)
            (1 + 2 * List.length pairs) (set_options pairs default_options) ;;
     if negb (fst r =? List.length (prog :: flatten_pairs pairs ++ rest))%nat
     then Raise too_many_arguments
     else Ok (snd r)).
Proof.
  intros Hp. unfold parse_args.
  replace (S (List.length (prog :: flatten_pairs pairs ++ rest)))
    with (List.length pairs + S (S (List.length pairs + List.length rest)))%nat
    by (simpl; rewrite length_app, length_flatten_pairs; lia).
  change (prog :: flatten_pairs pairs ++ rest)%list
    with ([prog] ++ flatten_pairs pairs ++ rest)%list.
  change 1%nat with (List.length [prog]) at 1.
  rewrite parse_loop_pairs by assumption. reflexivity.
Qed.

Lemma item_after_pairs (prog : string) (pairs : list (string * string))
  (a : string) (rest : list string) :
  item (prog :: flatten_pairs pairs ++ a :: rest) (1 + 2 * List.length pairs) = a.
Proof.
  change (prog :: flatten_pairs pairs ++ a :: rest)%list
    with ((prog :: flatten_pairs pairs) ++ a :: rest)%list.
  replace (1 + 2 * List.length pairs)%nat
    with (List.length (prog :: flatten_pairs pairs))
    by (simpl; rewrite length_flatten_pairs; lia).
  apply item_middle.
Qed.

(** X1: a command line made of flags [-D], [-f], [-T], each followed by a
    value, is accepted; the options are the defaults overwritten from left
    to right, so the last occurrence of a flag wins and a value is taken as
    it stands, even when it looks like a flag. *)
Theorem flags_with_values_accepted (prog : string)
  (pairs : list (string * string)) :
  Forall (fun p => In (fst p) value_flags) pairs ->
  parse_args (prog :: flatten_pairs pairs) = Ok (set_options pairs default_options).
Proof.
  intros Hp.
  rewrite <- (app_nil_r (flatten_pairs pairs)).
  rewrite parse_args_after_pairs by assumption.
  cbn [parse_loop].
  replace (1 + 2 * List.length pairs <?
           List.length (prog :: flatten_pairs pairs ++ []))%nat with false
    by (symmetry; apply Nat.ltb_ge; simpl;
        rewrite length_app, length_flatten_pairs; simpl; lia).
  cbn [bind fst snd].
  replace (1 + 2 * List.length pairs =?
           List.length (prog :: flatten_pairs pairs ++ []))%nat with true
    by (symmetry; apply Nat.eqb_eq; simpl;
        rewrite length_app, length_flatten_pairs; simpl; lia).
  reflexivity.
Qed.

Lemma flags_with_values_accepted_witness :
  parse_args ["miniplay.py"; "-D"; "default"; "-T"; "-f"; "-D"; "hw:0"]
  = Ok {| device := "hw:0"; format := None; tune := "-f" |}.
Proof.
  apply (flags_with_values_accepted "miniplay.py"
           [("-D", "default"); ("-T", "-f"); ("-D", "hw:0")]).
  repeat (apply Forall_cons || apply Forall_nil); simpl; auto.
Defined.

Lemma index_after_pairs_lt (prog : string) (pairs : list (string * string))
  (a : string) (rest : list string) :
  (1 + 2 * List.length pairs <?
   List.length (prog :: flatten_pairs pairs ++ a :: rest))%nat = true.
Proof.
  apply Nat.ltb_lt. simpl. rewrite length_app, length_flatten_pairs. simpl. lia.
Qed.

(** X2: [--] ends the options.  As the last argument it changes nothing;
    followed by anything it makes the command line fail with 'Too many
    command-line arguments.', whatever follows. *)
Theorem double_dash_ends_options (prog : string)
  (pairs : list (string * string)) (rest : list string) :
  Forall (fun p => In (fst p) value_flags) pairs ->
  parse_args (prog :: flatten_pairs pairs ++ "--" :: rest)
  = match rest with
    | [] => Ok (set_options pairs default_options)
    | _ :: _ => Raise too_many_arguments
    end.
Proof.
  intros Hp. rewrite parse_args_after_pairs by assumption.
  cbn [parse_loop].
  rewrite index_after_pairs_lt, item_after_pairs.
  cbn [String.eqb Ascii.eqb Bool.eqb bind fst snd].
  destruct rest as [|b rest].
  - replace (S (1 + 2 * List.length pairs) =?
             List.length (prog :: flatten_pairs pairs ++ ["--"]))%nat with true
      by (symmetry; apply Nat.eqb_eq; simpl;
          rewrite length_app, length_flatten_pairs; simpl; lia).
    reflexivity.
  - replace (S (1 + 2 * List.length pairs) =?
             List.length (prog :: flatten_pairs pairs ++ "--" :: b :: rest))%nat
      with false
      by (symmetry; apply Nat.eqb_neq; simpl;
          rewrite length_app, length_flatten_pairs; simpl; lia).
    reflexivity.
Qed.

Lemma double_dash_ends_options_witness :
  parse_args ["miniplay.py"; "-T"; "sin"; "--"]
  = Ok {| device := "dmix"; format := None; tune := "sin" |} /\
  parse_args ["miniplay.py"; "-T"; "sin"; "--"; "-D"; "default"]
  = Raise too_many_arguments.
Proof.
  split.
  - apply (double_dash_ends_options "miniplay.py" [("-T", "sin")] []).
    repeat (apply Forall_cons || apply Forall_nil); simpl; auto.
  - apply (double_dash_ends_options "miniplay.py" [("-T", "sin")]
             ["-D"; "default"]).
    repeat (apply Forall_cons || apply Forall_nil); simpl; auto.
Defined.

(** X3: an argument [-] in flag position stops the loop without being
    consumed, so the command line always fails with 'Too many command-line
    arguments.', also when [-] is the last argument. *)
Theorem single_dash_is_rejected (prog : string)
  (pairs : list (string * string)) (rest : list string) :
  Forall (fun p => In (fst p) value_flags) pairs ->
  parse_args (prog :: flatten_pairs pairs ++ "-" :: rest)
  = Raise too_many_arguments.
Proof.
  intros Hp. rewrite parse_args_after_pairs by assumption.
  cbn [parse_loop].
  rewrite index_after_pairs_lt, item_after_pairs.
  cbn [String.eqb Ascii.eqb Bool.eqb bind fst snd].
  replace (1 + 2 * List.length pairs =?
           List.length (prog :: flatten_pairs pairs ++ "-" :: rest))%nat
    with false
    by (symmetry; apply Nat.eqb_neq; simpl;
        rewrite length_app, length_flatten_pairs; simpl; lia).
  reflexivity.
Qed.

Lemma single_dash_is_rejected_witness :
  parse_args ["miniplay.py"; "-D"; "default"; "-"] = Raise too_many_arguments.
Proof.
  apply (single_dash_is_rejected "miniplay.py" [("-D", "default")] []).
  repeat (apply Forall_cons || apply Forall_nil); simpl; auto.
Defined.

(** X4: an argument in flag position that is none of [-], [--], [-D], [-f],
    [-T] makes the command line fail with 'Unknown flag: ' followed by that
    argument, whatever comes after it. *)
Theorem unknown_flag_is_rejected (prog a : string)
  (pairs : list (string * string)) (rest : list string) :
  Forall (fun p => In (fst p) value_flags) pairs ->
  a <> "-" -> a <> "--" -> ~ In a value_flags ->
  parse_args (prog :: flatten_pairs pairs ++ a :: rest)
  = Raise (RuntimeError (Text ("Unknown flag: " ++ a))).
Proof.
  intros Hp H1 H2 H3. rewrite parse_args_after_pairs by assumption.
  cbn [parse_loop].
  rewrite index_after_pairs_lt, item_after_pairs.
  apply String.eqb_neq in H1, H2. rewrite H1, H2.
  assert (HD : (a == "-D") = false)
    by (apply String.eqb_neq; intros ->; apply H3; simpl; auto).
  assert (Hf : (a == "-f") = false)
    by (apply String.eqb_neq; intros ->; apply H3; simpl; auto).
  assert (HT : (a == "-T") = false)
    by (apply String.eqb_neq; intros ->; apply H3; simpl; auto).
  rewrite HD, Hf, HT. reflexivity.
Qed.

Lemma unknown_flag_is_rejected_witness :
  parse_args ["miniplay.py"; "-D"; "default"; "song.wav"; "-T"; "sin"]
  = Raise (RuntimeError (Text "Unknown flag: song.wav")).
Proof.
  apply (unknown_flag_is_rejected "miniplay.py" "song.wav"
           [("-D", "default")] ["-T"; "sin"]).
  - repeat (apply Forall_cons || apply Forall_nil); simpl; auto.
  - discriminate.
  - discriminate.
  - simpl. intros [H|[H|[H|[]]]]; discriminate.
Defined.

Lemma skipn_item (argv : list string) :
  forall i, (i < List.length argv)%nat ->
  skipn i argv = item argv i :: skipn (S i) argv.
Proof.
  induction argv as [|a argv IH]; intros i Hi; simpl in Hi; [lia|].
  destruct i as [|i]; [reflexivity|].
  change (skipn (S i) (a :: argv)) with (skipn i argv).
  change (item (a :: argv) (S i)) with (item argv i).
  change (skipn (S (S i)) (a :: argv)) with (skipn (S i) argv).
  apply IH. lia.
Qed.

(** When the loop ends at the end of the command line, what it walked over
    was a run of flags with values, possibly closed by [--]. *)
Lemma parse_loop_accepts (fuel : nat) :
  forall argv i o o',
  parse_loop fuel argv i o = Ok (List.length argv, o') ->
  (i <= List.length argv)%nat ->
  exists pairs,
    Forall (fun p => In (fst p) value_flags) pairs /\
    (skipn i argv = flatten_pairs pairs \/
     skipn i argv = (flatten_pairs pairs ++ ["--"])%list) /\
    o' = set_options pairs o.
Proof.
  induction fuel as [|fuel IH]; intros argv i o o'; simpl; [discriminate|].
  destruct (i <? List.length argv)%nat eqn:Hi.
  - apply Nat.ltb_lt in Hi. intros H _.
    pose proof (skipn_item argv i Hi) as Hsk.
    destruct (item argv i == "-") eqn:E1.
    { inversion H. lia. }
    destruct (item argv i == "--") eqn:E2.
    { inversion H as [[Hl Ho]]. apply String.eqb_eq in E2.
      exists []. split; [constructor|]. split; [|reflexivity].
      right. rewrite Hsk, E2, skipn_all2 by lia. reflexivity. }
    destruct (S i <? List.length argv)%nat eqn:Hi';
      rewrite ?andb_false_r, ?andb_true_r in H; [|discriminate].
    apply Nat.ltb_lt in Hi'.
    pose proof (skipn_item argv (S i) Hi') as Hsk'.
    assert (Hstep : forall f o1,
              item argv i = f -> In f value_flags ->
              parse_loop fuel argv (S (S i)) o1 = Ok (List.length argv, o') ->
              o1 = set_option o (f, item argv (S i)) ->
              exists pairs,
                Forall (fun p => In (fst p) value_flags) pairs /\
                (skipn i argv = flatten_pairs pairs \/
                 skipn i argv = (flatten_pairs pairs ++ ["--"])%list) /\
                o' = set_options pairs o).
    { intros f o1 Hf Hin Hrec Ho1.
      apply IH in Hrec; [|lia]. destruct Hrec as [pairs [Hp [Hs Ho']]].
      exists ((f, item argv (S i)) :: pairs).
      split; [constructor; assumption|].
      split; [|subst o1; exact Ho'].
      rewrite Hsk, Hsk', Hf.
      change (flatten_pairs ((f, item argv (S i)) :: pairs))
        with (f :: item argv (S i) :: flatten_pairs pairs).
      destruct Hs as [-> | ->]; [left|right]; reflexivity. }
    destruct (item argv i == "-D") eqn:ED.
    { apply String.eqb_eq in ED.
      exact (Hstep "-D" _ ED ltac:(simpl; auto) H eq_refl). }
    destruct (item argv i == "-f") eqn:Ef.
    { apply String.eqb_eq in Ef.
      exact (Hstep "-f" _ Ef ltac:(simpl; auto) H eq_refl). }
    destruct (item argv i == "-T") eqn:ET; [|discriminate].
    apply String.eqb_eq in ET.
    exact (Hstep "-T" _ ET ltac:(simpl; auto) H eq_refl).
  - apply Nat.ltb_ge in Hi. intros H Hle. inversion H; subst.
    exists []. split; [constructor|]. split; [|reflexivity].
    left. apply skipn_all2. lia.
Qed.

(** X5: the accepted command lines are exactly those of X1 and X2: when
    [parse_args] succeeds, the arguments after the program name are flags
    [-D], [-f], [-T] with their values, possibly closed by one [--], and
    the options are the defaults overwritten from left to right.  An empty
    [argv] is not accepted. *)
Theorem accepted_command_lines (argv : list string) (o : options) :
  parse_args argv = Ok o ->
  exists prog pairs,
    Forall (fun p => In (fst p) value_flags) pairs /\
    (argv = prog :: flatten_pairs pairs \/
     argv = prog :: (flatten_pairs pairs ++ ["--"])%list) /\
    o = set_options pairs default_options.
Proof.
  unfold parse_args.
  destruct (parse_loop _ argv 1 default_options) as [[j o']| |] eqn:E;
    simpl; try discriminate.
  destruct (j =? List.length argv)%nat eqn:Hj; simpl; [|discriminate].
  apply Nat.eqb_eq in Hj. subst j. intros H; inversion H; subst o'.
  destruct argv as [|prog rest].
  - simpl in E. discriminate.
  - apply parse_loop_accepts in E; [|simpl; lia].
    destruct E as [pairs [Hp [Hs Ho]]].
    exists prog, pairs. split; [assumption|]. split; [|assumption].
    simpl in Hs. destruct Hs as [-> | ->]; auto.
Qed.

Lemma accepted_command_lines_witness :
  exists prog pairs,
    Forall (fun p => In (fst p) value_flags) pairs /\
    (["miniplay.py"; "-T"; "square"; "--"] = prog :: flatten_pairs pairs \/
     ["miniplay.py"; "-T"; "square"; "--"]
     = prog :: (flatten_pairs pairs ++ ["--"])%list) /\
    {| device := "dmix"; format := None; tune := "square" |}
    = set_options pairs default_options.
Proof.
  apply (accepted_command_lines ["miniplay.py"; "-T"; "square"; "--"]).
  reflexivity.
Defined.

(** * Further properties of the sample format and of packing *)

(** X6: the format names are matched exactly: [S16_LE], [S16_BE] and
    [S32_LE] select an encoding, and every other name, given with [-f],
    raises 'Unknown format: ' followed by the name. *)
Theorem format_names_matched_exactly (name : string) :
  (In name known_formats <-> exists e, select_encoding name = Ok e) /\
  (~ In name known_formats ->
   select_encoding name = Raise (RuntimeError (Text ("Unknown format: " ++ name)))).
Proof.
  assert (Hno : ~ In name known_formats ->
                select_encoding name
                = Raise (RuntimeError (Text ("Unknown format: " ++ name)))).
  { intros Hn. unfold select_encoding.
    assert (H1 : (name == "S16_LE") = false)
      by (apply String.eqb_neq; intros ->; apply Hn; simpl; auto).
    assert (H2 : (name == "S16_BE") = false)
      by (apply String.eqb_neq; intros ->; apply Hn; simpl; auto).
    assert (H3 : (name == "S32_LE") = false)
      by (apply String.eqb_neq; intros ->; apply Hn; simpl; auto).
    now rewrite H1, H2, H3. }
  split; [|exact Hno]. split.
  - simpl. intros [<-|[<-|[<-|[]]]]; eexists; reflexivity.
  - intros [e He].
    destruct (in_dec string_dec name known_formats) as [Hin|Hn]; [assumption|].
    rewrite (Hno Hn) in He. discriminate.
Qed.

Lemma format_names_matched_exactly_witness :
  select_encoding "s16_le"
  = Raise (RuntimeError (Text "Unknown format: s16_le")).
Proof.
  apply (proj2 (format_names_matched_exactly "s16_le")).
  simpl. intros [H|[H|[H|[]]]]; discriminate.
Defined.

(** X7: without [-f] the format is always one the program knows, so no
    'Unknown format' error can occur: the mixing device gets 4-byte
    little-endian samples of amplitude 2147483647, every other device 2-byte
    little-endian samples of amplitude 32767. *)
Theorem inferred_format_is_known (device : string) :
  (is_dmix device ->
   select_encoding (infer_format None device)
   = Ok (mkEncoding "<ll" 2147483647 4)) /\
  (~ is_dmix device ->
   select_encoding (infer_format None device)
   = Ok (mkEncoding "<hh" 32767 2)).
Proof.
  unfold infer_format. split; intros H.
  - apply is_dmix_test in H. now rewrite H.
  - destruct ((device == "dmix") || prefix "dmix:" device) eqn:E;
      [apply is_dmix_test in E; contradiction|reflexivity].
Qed.

Lemma inferred_format_is_known_witness :
  select_encoding (infer_format None "hw:CARD=0,DEV=0")
  = Ok (mkEncoding "<hh" 32767 2).
Proof.
  apply (proj2 (inferred_format_is_known "hw:CARD=0,DEV=0")).
  intros [H|[rest H]]; discriminate.
Defined.

Lemma pack_int_fits (bo : byte_order) (n : nat) (v : Z) :
  (fits (Z.of_nat n) v -> pack_int bo n v = Ok (ordered bo (le_bytes n v))) /\
  (~ fits (Z.of_nat n) v -> pack_int bo n v = Raise StructError).
Proof.
  unfold fits, pack_int. split; intros H.
  - replace (- 2 ^ (8 * Z.of_nat n - 1) <=? v) with true
      by (symmetry; apply Z.leb_le; lia).
    replace (v <? 2 ^ (8 * Z.of_nat n - 1)) with true
      by (symmetry; apply Z.ltb_lt; lia).
    reflexivity.
  - destruct (- 2 ^ (8 * Z.of_nat n - 1) <=? v) eqn:E1; [|reflexivity].
    destruct (v <? 2 ^ (8 * Z.of_nat n - 1)) eqn:E2; [|reflexivity].
    apply Z.leb_le in E1. apply Z.ltb_lt in E2. exfalso. apply H. lia.
Qed.

(** X8: packing a frame succeeds exactly when both samples fit the sample
    width, that is lie in [-maxv - 1, maxv]; otherwise it raises
    [struct.error].  The program does not clamp: a sample of [maxv + 1] is
    an error, and [-maxv - 1], which no tune produces, is packed. *)
Theorem pack_range (e : encoding) (lv rv : Z) :
  In e encodings ->
  (- maxv e - 1 <= lv <= maxv e /\ - maxv e - 1 <= rv <= maxv e ->
   exists bs, pack (fmt e) [lv; rv] = Ok bs) /\
  (~ (- maxv e - 1 <= lv <= maxv e /\ - maxv e - 1 <= rv <= maxv e) ->
   pack (fmt e) [lv; rv] = Raise StructError).
Proof.
  intros He.
  assert (H : exists bo n,
            (0 < n)%nat /\ maxv e = 2 ^ (8 * Z.of_nat n - 1) - 1 /\
            pack (fmt e) [lv; rv]
            = (b <- pack_int bo n lv ;;
               r <- (b' <- pack_int bo n rv ;; r' <- Ok [] ;; Ok (b' ++ r')%list) ;;
               Ok (b ++ r)%list)).
  { simpl in He. destruct He as [<-|[<-|[<-|[<-|[]]]]].
    - exists LittleEndian, 2%nat. repeat split; lia.
    - exists BigEndian, 2%nat. repeat split; lia.
    - exists LittleEndian, 4%nat. repeat split; lia.
    - exists BigEndian, 4%nat. repeat split; lia. }
  destruct H as [bo [n [Hn [Hmax ->]]]].
  destruct (pack_int_fits bo n lv) as [Hl1 Hl2].
  destruct (pack_int_fits bo n rv) as [Hr1 Hr2].
  unfold fits in *. split.
  - intros [Hl Hr]. rewrite Hl1, Hr1 by lia. simpl. eauto.
  - intros Hnot.
    destruct (Z_le_dec (- maxv e - 1) lv) as [Ha|Ha];
      [destruct (Z_le_dec lv (maxv e)) as [Hb|Hb]|];
      try (rewrite Hl2 by lia; reflexivity).
    rewrite Hl1 by lia. rewrite Hr2 by lia. reflexivity.
Qed.

Lemma pack_range_witness :
  (exists bs, pack "<hh" [-32768; 32767] = Ok bs) /\
  pack "<hh" [0; 32768] = Raise StructError.
Proof.
  split.
  - apply (proj1 (pack_range (mkEncoding "<hh" 32767 2) (-32768) 32767
                    ltac:(simpl; auto))).
    simpl; lia.
  - apply (proj2 (pack_range (mkEncoding "<hh" 32767 2) 0 32768
                    ltac:(simpl; auto))).
    simpl; lia.
Defined.

Lemma unpack_of_pack (e : encoding) (vals : list Z) (bs : list byte) :
  In e encodings ->
  pack (fmt e) vals = Ok bs -> unpack (fmt e) bs = Ok vals.
Proof.
  intros He. simpl in He.
  destruct He as [<-|[<-|[<-|[<-|[]]]]];
    unfold pack, unpack;
    cbn [fmt byte_order_of Ascii.eqb Bool.eqb list_ascii_of_string];
    intros H; apply unpack_pack_items in H; apply H.
Qed.

(** X9: packing loses nothing: two frames that pack to the same bytes are
    the same pair of samples.  In particular the low and the high frame of
    a bit pattern are different byte strings. *)
Theorem pack_is_injective (e : encoding) (lv rv lv' rv' : Z) (bs : list byte) :
  In e encodings ->
  pack (fmt e) [lv; rv] = Ok bs ->
  pack (fmt e) [lv'; rv'] = Ok bs ->
  lv = lv' /\ rv = rv'.
Proof.
  intros He H H'.
  apply (unpack_of_pack e) in H, H'; try assumption.
  rewrite H in H'. inversion H'. auto.
Qed.

Lemma pack_is_injective_witness : 258 = 258 /\ -2 = -2.
Proof.
  apply (pack_is_injective (mkEncoding ">hh" 32767 2) 258 (-2) 258 (-2)
           [x01; x02; xff; xfe]).
  - simpl; auto.
  - reflexivity.
  - reflexivity.
Defined.

(** * Further properties of the generator *)

Lemma bits_raise_kinds (e : encoding) (r bitrate : Z) (bits : string) (x : exn) :
  get_data_for_bits e r bitrate bits = Raise x ->
  forall m, x <> RuntimeError m.
Proof.
  unfold get_data_for_bits.
  destruct (bitrate =? 0); [intros H; inversion H; discriminate|].
  destruct (negb _); [intros H; inversion H; discriminate|].
  destruct (_ >? bitrate); [intros H; inversion H; discriminate|].
  destruct (pack (fmt e) [- maxv e; - maxv e]) as [lo|y|] eqn:Hlo; simpl;
    [|intros H; inversion H; subst; apply pack_raises in Hlo; subst; discriminate
     |discriminate].
  destruct (pack (fmt e) [maxv e; maxv e]) as [hi|y|] eqn:Hhi; simpl;
    [|intros H; inversion H; subst; apply pack_raises in Hhi; subst; discriminate
     |discriminate].
  intros H. apply join_raises, in_map_iff in H. destruct H as [i [H _]].
  destruct (_ =? 0); [inversion H; discriminate|].
  destruct (String.get _ bits); inversion H; discriminate.
Qed.

(** One frame of a joined buffer: the part that produced it. *)
Lemma join_frames (w : nat) (f : Z -> outcome (list byte)) :
  (forall i bs, f i = Ok bs -> List.length bs = w) ->
  forall l data, join (map f l) = Ok data ->
  forall k, (k < List.length l)%nat -> f (nth k l 0) = Ok (frame w data k).
Proof.
  intros Hw. unfold frame.
  induction l as [|a l IH]; intros data H k Hk; simpl in Hk; [lia|].
  simpl in H.
  destruct (f a) as [b| |] eqn:Ha; simpl in H; try discriminate.
  destruct (join (map f l)) as [r| |] eqn:Hr; simpl in H; try discriminate.
  inversion H; subst data. pose proof (Hw a b Ha) as Hb.
  destruct k as [|k]; simpl.
  - rewrite Ha, firstn_app, <- Hb, firstn_all, Nat.sub_diag. simpl.
    now rewrite app_nil_r.
  - rewrite skipn_app, Hb, (skipn_all2 b) by lia.
    replace (w + k * w - w)%nat with (k * w)%nat by lia.
    simpl. apply IH; [reflexivity|lia].
Qed.

Lemma join_all_Ok {A : Type} (f : A -> outcome (list byte)) (l : list A) :
  (forall x, In x l -> exists b, f x = Ok b) ->
  exists data, join (map f l) = Ok data.
Proof.
  induction l as [|a l IH]; intros H; simpl; [eauto|].
  destruct (H a) as [b ->]; [simpl; auto|].
  destruct IH as [r ->]; [intros x Hx; apply H; simpl; auto|].
  simpl. eauto.
Qed.

Section Tunes.

Variables isin isin4 : Z -> Z -> Z -> Z.

(** X10: for a rate other than zero, 'Unknown tune: ' followed by the name
    is raised exactly for the names that are none of [sin], [sine],
    [sinlh], [sinl], [sinh], [square] and do not start with [bits:]; no
    other failure of the generator is a [RuntimeError]. *)
Theorem unknown_tune_rejected (e : encoding) (r : Z) (tune : string) :
  r <> 0 ->
  (known_tune tune = false ->
   generate isin isin4 e r tune
   = Raise (RuntimeError (Text ("Unknown tune: " ++ tune)))) /\
  (forall m, generate isin isin4 e r tune = Raise (RuntimeError m) ->
             known_tune tune = false /\ m = Text ("Unknown tune: " ++ tune)).
Proof.
  intros Hr. unfold generate, known_tune.
  replace (r =? 0) with false by (symmetry; apply Z.eqb_neq; lia).
  destruct ((tune == "sin") || (tune == "sine")) eqn:E1; simpl.
  { split; [discriminate|]. intros m H. apply frames_raise in H. discriminate. }
  destruct (tune == "sinlh") eqn:E2; simpl.
  { split; [discriminate|]. intros m H. apply frames_raise in H. discriminate. }
  destruct (tune == "sinl") eqn:E3; simpl.
  { split; [discriminate|]. intros m H.
    apply (frames_raise _ _ _ (fun _ => 0)) in H. discriminate. }
  destruct (tune == "sinh") eqn:E4; simpl.
  { split; [discriminate|]. intros m H.
    apply (frames_raise _ _ (fun _ => 0)) in H. discriminate. }
  destruct (tune == "square") eqn:E5; simpl.
  { split; [discriminate|]. intros m H.
    apply bits_raise_kinds with (m := m) in H. congruence. }
  destruct (prefix "bits:" tune) eqn:E6; simpl.
  - split; [discriminate|]. intros m H.
    destruct (split_once ":" tune) as [|? [|bits ?]]; try discriminate.
    apply bits_raise_kinds with (m := m) in H. congruence.
  - split; [reflexivity|]. intros m H. inversion H. auto.
Qed.

(** X11: [sine] is another name of [sin], and [square] is the pattern
    [bits:01]: the buffers, or the failures, are the same for every
    encoding and rate. *)
Theorem tune_synonyms (e : encoding) (r : Z) :
  generate isin isin4 e r "sine" = generate isin isin4 e r "sin" /\
  generate isin isin4 e r "square" = generate isin isin4 e r "bits:01".
Proof.
  unfold generate. destruct (r =? 0); split; reflexivity.
Qed.

(** The frames of a sine tune, and when its generation succeeds. *)
Lemma generate_sine (e : encoding) (r : Z) (tune : string) (L R : Z -> Z) :
  r <> 0 ->
  sine_samples (isin r (maxv e)) (isin4 r (maxv e)) tune = Some (L, R) ->
  generate isin isin4 e r tune
  = join (map (fun i => pack (fmt e) [L i; R i]) (xrange r)).
Proof.
  intros Hr. unfold generate, sine_samples.
  replace (r =? 0) with false by (symmetry; apply Z.eqb_neq; lia).
  destruct ((tune == "sin") || (tune == "sine"));
    [intros H; inversion H; reflexivity|].
  destruct (tune == "sinlh"); [intros H; inversion H; reflexivity|].
  destruct (tune == "sinl"); [intros H; inversion H; reflexivity|].
  destruct (tune == "sinh"); [intros H; inversion H; reflexivity|].
  discriminate.
Qed.

(** X12: in the buffer of a sine tune, frame [i] packs the samples of
    index [i]: [sin] and [sine] carry the 440 Hz sample on both channels,
    [sinlh] the quarter-pitch sample on the left and the 440 Hz sample on
    the right, [sinl] the quarter-pitch sample on the left and silence on
    the right, [sinh] silence on the left and the 440 Hz sample on the
    right. *)
Theorem sine_frames (e : encoding) (r : Z) (tune : string) (L R : Z -> Z)
  (data : list byte) :
  In e encodings ->
  sine_samples (isin r (maxv e)) (isin4 r (maxv e)) tune = Some (L, R) ->
  generate isin isin4 e r tune = Ok data ->
  forall i, (i < Z.to_nat r)%nat ->
    pack (fmt e) [L (Z.of_nat i); R (Z.of_nat i)]
    = Ok (frame (Z.to_nat (2 * sbs e)) data i).
Proof.
  intros He Hs Hg i Hi.
  assert (Hr : r <> 0) by lia.
  rewrite (generate_sine e r tune L R Hr Hs) in Hg.
  pose proof (join_frames (Z.to_nat (2 * sbs e))
                (fun i => pack (fmt e) [L i; R i])) as Hf.
  specialize (Hf (fun j bs Hbs =>
                    ltac:(apply (pack_length e) in Hbs; [lia|assumption]))).
  specialize (Hf (xrange r) data Hg i).
  rewrite length_xrange in Hf. specialize (Hf Hi).
  unfold xrange in Hf. rewrite nth_count_from in Hf by assumption.
  exact Hf.
Qed.

(** X13: a sine tune fails only with [struct.error], and it succeeds, with a
    buffer of [rate * sbs * 2] bytes, when every sample it uses is within
    the amplitude [maxv]. *)
Theorem sine_generation_succeeds (e : encoding) (r : Z) (tune : string)
  (L R : Z -> Z) :
  In e encodings ->
  0 < r ->
  sine_samples (isin r (maxv e)) (isin4 r (maxv e)) tune = Some (L, R) ->
  (forall x, generate isin isin4 e r tune = Raise x -> x = StructError) /\
  ((forall i, 0 <= i < r ->
      - maxv e <= L i <= maxv e /\ - maxv e <= R i <= maxv e) ->
   exists data, generate isin isin4 e r tune = Ok data /\
                Z.of_nat (List.length data) = r * sbs e * 2).
Proof.
  intros He Hr Hs.
  rewrite (generate_sine e r tune L R ltac:(lia) Hs). split.
  - intros x H. now apply frames_raise in H.
  - intros Hb.
    destruct (join_all_Ok (fun i => pack (fmt e) [L i; R i]) (xrange r))
      as [data Hd].
    { intros i Hi. apply In_xrange in Hi.
      apply pack_in_range; [assumption|apply Hb; lia..]. }
    exists data. split; [exact Hd|].
    apply frames_length in Hd; [|assumption]. lia.
Qed.

End Tunes.

Lemma unknown_tune_rejected_witness :
  generate silence silence (mkEncoding "<hh" 32767 2) 48000 "Sin"
  = Raise (RuntimeError (Text "Unknown tune: Sin")).
Proof.
  apply (proj1 (unknown_tune_rejected silence silence
                  (mkEncoding "<hh" 32767 2) 48000 "Sin" ltac:(lia))).
  reflexivity.
Defined.

Lemma sine_generation_succeeds_witness :
  exists data,
    generate silence silence (mkEncoding "<ll" 2147483647 4) 48000 "sinl" = Ok data /\
    Z.of_nat (List.length data) = 48000 * 4 * 2.
Proof.
  apply (proj2 (sine_generation_succeeds silence silence
                  (mkEncoding "<ll" 2147483647 4) 48000 "sinl"
                  (silence 48000 2147483647) (fun _ => 0)
                  ltac:(simpl; auto) ltac:(lia) ltac:(reflexivity))).
  intros i _. unfold silence. simpl. lia.
Defined.

Lemma sine_frames_witness :
  exists data,
    generate silence silence (mkEncoding "<ll" 2147483647 4) 48000 "sinl" = Ok data /\
    pack "<ll" [0; 0] = Ok (frame 8 data 3).
Proof.
  destruct (join_all_Ok
              (fun i => pack "<ll" [silence 48000 2147483647 i; 0])
              (xrange 48000)) as [data Hd].
  { intros i _. eexists. reflexivity. }
  exists data. split; [exact Hd|].
  apply (sine_frames silence silence (mkEncoding "<ll" 2147483647 4) 48000 "sinl"
           (silence 48000 2147483647) (fun _ => 0) data
           ltac:(simpl; auto) ltac:(reflexivity) Hd 3%nat).
  lia.
Defined.

(** * Further properties of bit patterns *)

(** The buffer is decided by which slots are low. *)
Lemma same_slots_same_data (e : encoding) (r bitrate : Z) (p q : string) :
  0 < Z.of_nat (String.length p) <= bitrate ->
  0 < Z.of_nat (String.length q) <= bitrate ->
  (forall i, 0 <= i < bitrate -> slot_is_low p i = slot_is_low q i) ->
  get_data_for_bits e r bitrate p = get_data_for_bits e r bitrate q.
Proof.
  intros Hp Hq Hsame. unfold get_data_for_bits.
  destruct (bitrate =? 0); [reflexivity|].
  destruct (negb _); [reflexivity|].
  replace (Z.of_nat (String.length p) >? bitrate) with false
    by (symmetry; rewrite Z.gtb_ltb; apply Z.ltb_ge; lia).
  replace (Z.of_nat (String.length q) >? bitrate) with false
    by (symmetry; rewrite Z.gtb_ltb; apply Z.ltb_ge; lia).
  destruct (pack (fmt e) [- maxv e; - maxv e]) as [lo| |]; try reflexivity.
  destruct (pack (fmt e) [maxv e; maxv e]) as [hi| |]; try reflexivity.
  simpl bind. f_equal. apply map_ext_in. intros i Hi. apply In_xrange in Hi.
  replace (Z.of_nat (String.length p) =? 0) with false
    by (symmetry; apply Z.eqb_neq; lia).
  replace (Z.of_nat (String.length q) =? 0) with false
    by (symmetry; apply Z.eqb_neq; lia).
  specialize (Hsame i Hi). unfold slot_is_low in Hsame.
  destruct (get_in_range p (Z.to_nat (i mod Z.of_nat (String.length p))))
    as [c Hc].
  { pose proof (Z.mod_pos_bound i (Z.of_nat (String.length p))). lia. }
  destruct (get_in_range q (Z.to_nat (i mod Z.of_nat (String.length q))))
    as [d Hd].
  { pose proof (Z.mod_pos_bound i (Z.of_nat (String.length q))). lia. }
  rewrite Hc, Hd in *. unfold not_in_0_nul. now rewrite Hsame.
Qed.

(** X14: only the class of a symbol matters, low (['0'] or a null byte) or
    high (anything else): two patterns that are low in the same slots give
    the same buffer, or the same failure, at every rate. *)
Theorem pattern_classes_decide (e : encoding) (r bitrate : Z) (p q : string) :
  0 < Z.of_nat (String.length p) <= bitrate ->
  0 < Z.of_nat (String.length q) <= bitrate ->
  (forall i, 0 <= i < bitrate -> slot_is_low p i = slot_is_low q i) ->
  get_data_for_bits e r bitrate p = get_data_for_bits e r bitrate q.
Proof. apply same_slots_same_data. Qed.

Lemma pattern_classes_decide_witness :
  get_data_for_bits (mkEncoding "<hh" 32767 2) 48000 1200 "0110"
  = get_data_for_bits (mkEncoding "<hh" 32767 2) 48000 1200 "0x-0".
Proof.
  apply (pattern_classes_decide (mkEncoding "<hh" 32767 2) 48000 1200
           "0110" "0x-0"); [simpl; lia | simpl; lia |].
  intros i Hi. unfold slot_is_low. simpl String.length.
  change (Z.of_nat 4) with 4.
  pose proof (Z.mod_pos_bound i 4 eq_refl) as Hb.
  assert (Hc : i mod 4 = 0 \/ i mod 4 = 1 \/ i mod 4 = 2 \/ i mod 4 = 3) by lia.
  destruct Hc as [-> | [-> | [-> | ->]]]; reflexivity.
Defined.

Lemma length_append (s1 s2 : string) :
  String.length (s1 ++ s2) = (String.length s1 + String.length s2)%nat.
Proof. induction s1 as [|c s1 IH]; simpl; [reflexivity|now rewrite IH]. Qed.

Lemma slot_is_low_doubled (p : string) (i : Z) :
  (0 < String.length p)%nat ->
  slot_is_low (p ++ p) i = slot_is_low p i.
Proof.
  intros Hp. unfold slot_is_low. rewrite length_append.
  set (s := Z.of_nat (String.length p)).
  replace (Z.of_nat (String.length p + String.length p)) with (s * 2) by lia.
  assert (Hs : 0 < s) by lia.
  pose proof (Z.rem_mul_r i s 2 ltac:(lia) ltac:(lia)) as Hm.
  pose proof (Z.mod_pos_bound i s Hs) as Hb.
  pose proof (Z.mod_pos_bound (i / s) 2 eq_refl) as Hb2.
  assert (Ht : (i / s) mod 2 = 0 \/ (i / s) mod 2 = 1) by lia.
  destruct Ht as [Ht|Ht]; rewrite Ht in Hm.
  - replace (i mod (s * 2)) with (i mod s) by lia.
    rewrite <- (append_correct1 p p); [reflexivity|lia].
  - replace (Z.to_nat (i mod (s * 2)))
      with (Z.to_nat (i mod s) + String.length p)%nat by lia.
    now rewrite <- (append_correct2 p p).
Qed.

(** X15: a pattern written twice in a row gives the buffer of the pattern
    written once (as long as the doubled pattern is not longer than the bit
    rate): a slot takes its symbol modulo the length of the pattern. *)
Theorem doubled_pattern_same_data (e : encoding) (r bitrate : Z) (p : string) :
  (0 < String.length p)%nat ->
  2 * Z.of_nat (String.length p) <= bitrate ->
  get_data_for_bits e r bitrate (p ++ p) = get_data_for_bits e r bitrate p.
Proof.
  intros Hp Hb. apply same_slots_same_data.
  - rewrite length_append. lia.
  - lia.
  - intros i _. now apply slot_is_low_doubled.
Qed.

Lemma doubled_pattern_same_data_witness :
  get_data_for_bits (mkEncoding "<hh" 32767 2) 48000 1200 "0101"
  = get_data_for_bits (mkEncoding "<hh" 32767 2) 48000 1200 "01".
Proof.
  apply (doubled_pattern_same_data (mkEncoding "<hh" 32767 2) 48000 1200 "01").
  - simpl; lia.
  - simpl; lia.
Defined.

Section BitsTune.

Variables isin isin4 : Z -> Z -> Z -> Z.

Lemma generate_bits (e : encoding) (r : Z) (p : string) :
  r <> 0 ->
  generate isin isin4 e r ("bits:" ++ p) = get_data_for_bits e r 1200 p.
Proof.
  intros Hr. unfold generate.
  replace (r =? 0) with false by (symmetry; apply Z.eqb_neq; lia).
  destruct p; reflexivity.
Qed.

(** X16: the tune [bits:] followed by a pattern, at the rate of 48000 that
    [main] uses.  The pattern is everything after the first colon, further
    colons included.  A pattern of more than 1200 symbols raises
    'Too many bits of data.'; a pattern of 1 to 1200 symbols gives 1200
    slots of 40 frames, low or high as the symbol of the slot says; the
    'Invalid rate' error cannot occur. *)
Theorem bits_tune_outcome (e : encoding) (p : string) :
  In e encodings ->
  (1200 < Z.of_nat (String.length p) ->
   generate isin isin4 e 48000 ("bits:" ++ p) = Raise (ValueError too_many_bits)) /\
  (0 < Z.of_nat (String.length p) <= 1200 ->
   exists lo hi,
     pack (fmt e) [- maxv e; - maxv e] = Ok lo /\
     pack (fmt e) [maxv e; maxv e] = Ok hi /\
     generate isin isin4 e 48000 ("bits:" ++ p)
     = Ok (List.concat (slots lo hi 40 1200 p))).
Proof.
  intros He. rewrite generate_bits by lia. split.
  - intros Hl. unfold get_data_for_bits.
    change (1200 =? 0) with false. change (48000 mod 1200 =? 0) with true.
    cbv iota. simpl negb. cbv iota.
    replace (Z.of_nat (String.length p) >? 1200) with true
      by (symmetry; rewrite Z.gtb_ltb; apply Z.ltb_lt; lia).
    reflexivity.
  - intros Hl.
    assert (Hmaxv : 0 <= maxv e)
      by (simpl in He; destruct He as [<-|[<-|[<-|[<-|[]]]]]; simpl; lia).
    destruct (pack_in_range e (- maxv e) (- maxv e) He) as [lo Hlo]; try lia.
    destruct (pack_in_range e (maxv e) (maxv e) He) as [hi Hhi]; try lia.
    exists lo, hi. split; [assumption|]. split; [assumption|].
    change 40 with (48000 / 1200).
    apply get_data_for_bits_slots; try assumption; try lia. reflexivity.
Qed.

End BitsTune.

Lemma bits_tune_outcome_witness :
  exists lo hi,
    pack "<hh" [- 32767; - 32767] = Ok lo /\
    pack "<hh" [32767; 32767] = Ok hi /\
    generate silence silence (mkEncoding "<hh" 32767 2) 48000 "bits:0:1"
    = Ok (List.concat (slots lo hi 40 1200 "0:1")).
Proof.
  apply (proj2 (bits_tune_outcome silence silence (mkEncoding "<hh" 32767 2) "0:1"
                  ltac:(simpl; auto))).
  simpl; lia.
Defined.

(** * Further properties of the playback *)

Lemma write_loop_skip (env : sink) (data : list byte) (m : nat) :
  forall fuel n0,
  (forall k, (n0 <= k < n0 + m)%nat ->
             write env k data = Ok tt /\ flush env k = Ok tt) ->
  write_loop (m + fuel) env data n0 = write_loop fuel env data (n0 + m).
Proof.
  induction m as [|m IH]; intros fuel n0 H.
  - simpl. now rewrite Nat.add_0_r.
  - destruct (H n0 ltac:(lia)) as [Hw Hf].
    simpl. rewrite Hw, Hf. simpl.
    rewrite IH by (intros k Hk; apply H; lia).
    f_equal. lia.
Qed.

Lemma write_loop_fails (env : sink) (data : list byte) (fuel n : nat) (x : exn) :
  accepts env data n -> fails_at env data n x -> (n < fuel)%nat ->
  write_loop fuel env data 0 = Raise x.
Proof.
  intros Ha Hf Hn.
  replace fuel with (n + S (fuel - n - 1))%nat by lia.
  rewrite write_loop_skip by (intros k Hk; apply Ha; lia).
  simpl. destruct Hf as [-> | [-> ->]]; reflexivity.
Qed.

Lemma write_loop_raises (env : sink) (data : list byte) (fuel : nat) :
  forall n x, write_loop fuel env data n = Raise x ->
  exists k, write env k data = Raise x \/ flush env k = Raise x.
Proof.
  induction fuel as [|fuel IH]; intros n x; simpl; [discriminate|].
  destruct (write env n data) as [[]|y|] eqn:Hw; simpl; try discriminate.
  - destruct (flush env n) as [[]|y|] eqn:Hf; simpl; try discriminate.
    + apply IH.
    + intros H; inversion H; subst. eauto.
  - intros H; inversion H; subst. eauto.
Qed.

Lemma close_ignored_ok (env : sink) :
  close_ignored env ->
  try_except_pass is_OSError_or_IOError (close env) = Ok tt.
Proof.
  intros [-> | [x [-> Hx]]]; simpl; [reflexivity|now rewrite Hx].
Qed.

(** X17: the program never stops playing by itself.  As long as the sink
    takes every buffer, the loop goes on: whatever the number of iterations
    allowed, [play] is still running after them. *)
Theorem plays_until_stopped (fuel : nat) (env : sink) (p : prepared) :
  spawn env (cmd p) = Ok tt ->
  accepts env (data p) fuel ->
  play fuel env p = Unfinished.
Proof.
  intros Hs Ha. unfold play, write_until_stopped.
  rewrite Hs. simpl bind.
  replace fuel with (fuel + 0)%nat at 1 by lia.
  rewrite write_loop_skip by (intros k Hk; apply Ha; lia).
  reflexivity.
Qed.

(** X18: the first call of the loop that fails decides how [play] ends.
    When the pipe can then be closed (a failure of the close with [OSError]
    or [IOError] is ignored) and the wait returns, a [KeyboardInterrupt]
    makes [play] return normally and any other exception reaches the
    caller unchanged; the exit code the wait returned has no influence. *)
Theorem first_failure_decides (fuel n : nat) (env : sink) (p : prepared)
  (x : exn) (exit_code : Z) :
  spawn env (cmd p) = Ok tt ->
  accepts env (data p) n ->
  fails_at env (data p) n x ->
  close_ignored env ->
  wait env = Ok exit_code ->
  (n < fuel)%nat ->
  play fuel env p = after_interrupt_handler x.
Proof.
  intros Hs Ha Hf Hc Hw Hn. unfold play, write_until_stopped, try_finally.
  rewrite Hs. simpl bind.
  rewrite (write_loop_fails env (data p) fuel n x Ha Hf Hn).
  rewrite (close_ignored_ok env Hc), Hw. simpl.
  unfold after_interrupt_handler. reflexivity.
Qed.

Lemma first_failure_decides_witness :
  play 5 interrupted_sink
       {| cmd := ["aplay"]; data := [] |} = Ok tt /\
  play 5 dying_sink {| cmd := ["aplay"]; data := [] |} = Raise (IOError 32).
Proof.
  split.
  - apply (first_failure_decides 5 2 interrupted_sink
             {| cmd := ["aplay"]; data := [] |} KeyboardInterrupt 0).
    + reflexivity.
    + intros k Hk. destruct k as [|[|k]]; [split; reflexivity..|lia].
    + left. reflexivity.
    + left. reflexivity.
    + reflexivity.
    + lia.
  - apply (first_failure_decides 5 2 dying_sink
             {| cmd := ["aplay"]; data := [] |} (IOError 32) 1).
    + reflexivity.
    + intros k Hk. destruct k as [|[|k]]; [split; reflexivity..|lia].
    + left. reflexivity.
    + left. reflexivity.
    + reflexivity.
    + lia.
Defined.

Lemma plays_until_stopped_witness :
  play 2 dying_sink {| cmd := ["aplay"]; data := [] |} = Unfinished.
Proof.
  apply (plays_until_stopped 2 dying_sink {| cmd := ["aplay"]; data := [] |}).
  - reflexivity.
  - intros k Hk. destruct k as [|[|k]]; [split; reflexivity..|lia].
Defined.

(** X19: an exception raised while waiting for the sink in the [finally]
    clause replaces the one that ended the loop: a [KeyboardInterrupt]
    during the wait makes [play] return normally even after a failed write,
    and any other exception of the wait is the one the caller sees. *)
Theorem failure_while_waiting_decides (fuel n : nat) (env : sink) (p : prepared)
  (x y : exn) :
  spawn env (cmd p) = Ok tt ->
  accepts env (data p) n ->
  fails_at env (data p) n x ->
  close_ignored env ->
  wait env = Raise y ->
  (n < fuel)%nat ->
  play fuel env p = after_interrupt_handler y.
Proof.
  intros Hs Ha Hf Hc Hw Hn. unfold play, write_until_stopped, try_finally.
  rewrite Hs. simpl bind.
  rewrite (write_loop_fails env (data p) fuel n x Ha Hf Hn).
  rewrite (close_ignored_ok env Hc), Hw. simpl.
  unfold after_interrupt_handler. reflexivity.
Qed.

Lemma failure_while_waiting_decides_witness :
  play 1 {| spawn := fun _ => Ok tt;
            write := fun _ _ => Raise (IOError 32);
            flush := fun _ => Ok tt;
            close := Raise (IOError 32);
            wait := Raise KeyboardInterrupt |}
       {| cmd := ["aplay"]; data := [] |}
  = Ok tt.
Proof.
  apply (failure_while_waiting_decides 1 0
           {| spawn := fun _ => Ok tt;
              write := fun _ _ => Raise (IOError 32);
              flush := fun _ => Ok tt;
              close := Raise (IOError 32);
              wait := Raise KeyboardInterrupt |}
           {| cmd := ["aplay"]; data := [] |} (IOError 32) KeyboardInterrupt).
  - reflexivity.
  - intros k Hk. lia.
  - left. reflexivity.
  - right. exists (IOError 32). split; reflexivity.
  - reflexivity.
  - lia.
Defined.

(** X20: [play] returns normally only after a [KeyboardInterrupt]: the
    sink was started, and a write, a flush, the close or the wait raised
    [KeyboardInterrupt].  No other way out of the loop ends without an
    exception. *)
Theorem normal_return_means_interrupt (fuel : nat) (env : sink) (p : prepared) :
  play fuel env p = Ok tt ->
  spawn env (cmd p) = Ok tt /\
  ((exists k, write env k (data p) = Raise KeyboardInterrupt \/
              flush env k = Raise KeyboardInterrupt) \/
   close env = Raise KeyboardInterrupt \/
   wait env = Raise KeyboardInterrupt).
Proof.
  unfold play.
  destruct (spawn env (cmd p)) as [[]| |]; simpl; try discriminate.
  intros H. split; [reflexivity|].
  pose proof (write_until_stopped_never_returns fuel env (data p)) as Hnever.
  destruct (write_until_stopped fuel env (data p)) as [c|x|] eqn:E; simpl in H.
  - exfalso. now apply (Hnever c).
  - destruct x; simpl in H; try discriminate. clear H Hnever.
    unfold write_until_stopped, try_finally in E.
    pose proof (write_loop_never_ends fuel env (data p) 0) as Hloop.
    destruct (write_loop fuel env (data p) 0) as [a|x|] eqn:El; simpl in E.
    + exfalso. now apply (Hloop a).
    + destruct (close env) as [[]|y|] eqn:Hc; simpl in E.
      * destruct (wait env) as [c|y|] eqn:Hw; simpl in E.
        -- inversion E; subst. left. eapply write_loop_raises; eauto.
        -- inversion E; subst. auto.
        -- discriminate.
      * destruct (is_OSError_or_IOError y) eqn:Hy; simpl in E.
        -- destruct (wait env) as [c|z|] eqn:Hw; simpl in E.
           ++ inversion E; subst. left. eapply write_loop_raises; eauto.
           ++ inversion E; subst. auto.
           ++ discriminate.
        -- inversion E; subst. auto.
      * discriminate.
    + discriminate.
  - discriminate.
Qed.

Lemma normal_return_means_interrupt_witness :
  spawn interrupted_sink ["aplay"] = Ok tt /\
  ((exists k, write interrupted_sink k [] = Raise KeyboardInterrupt \/
              flush interrupted_sink k = Raise KeyboardInterrupt) \/
   close interrupted_sink = Raise KeyboardInterrupt \/
   wait interrupted_sink = Raise KeyboardInterrupt).
Proof.
  apply (normal_return_means_interrupt 3 interrupted_sink
           {| cmd := ["aplay"]; data := [] |}).
  reflexivity.
Defined.

(** * The command given to aplay *)

Lemma select_encoding_name (name : string) (e : encoding) :
  select_encoding name = Ok e -> In name known_formats.
Proof.
  unfold select_encoding, known_formats.
  destruct (name == "S16_LE") eqn:E1; [apply String.eqb_eq in E1; simpl; auto|].
  destruct (name == "S16_BE") eqn:E2; [apply String.eqb_eq in E2; simpl; auto|].
  destruct (name == "S32_LE") eqn:E3; [apply String.eqb_eq in E3; simpl; auto|].
  discriminate.
Qed.

Section Command.

Variables isin isin4 : Z -> Z -> Z -> Z.

(** X21: when [main] reaches line 139, the command is [aplay] with the
    device of the command line (or [dmix]), two channels, the rate written
    as [48000], the quiet flag, and a format name that is one of [S16_LE],
    [S16_BE], [S32_LE]: the name given with [-f], or the inferred one. *)
Theorem aplay_command (argv : list string) (p : prepared) :
  prepare isin isin4 argv = Ok p ->
  exists o name,
    parse_args argv = Ok o /\
    name = infer_format (format o) (device o) /\
    In name known_formats /\
    cmd p = ["aplay"; "-D"; device o; "-f"; name; "-c"; "2"; "-r"; "48000"; "-q"].
Proof.
  unfold prepare.
  destruct (parse_args argv) as [o| |]; simpl; try discriminate.
  destruct (select_encoding _) as [e| |] eqn:He; simpl; try discriminate.
  destruct (generate isin isin4 e rate (tune o)) as [d| |]; simpl; try discriminate.
  destruct (assert_length d rate (sbs e)); simpl; try discriminate.
  intros H; inversion H; subst p; simpl.
  exists o, (infer_format (format o) (device o)).
  repeat split. eapply select_encoding_name; eauto.
Qed.

End Command.

Lemma aplay_command_witness :
  exists o name,
    parse_args ["miniplay.py"; "-D"; "default"; "-T"; "square"] = Ok o /\
    name = infer_format (format o) (device o) /\
    In name known_formats /\
    ["aplay"; "-D"; "default"; "-f"; "S16_LE"; "-c"; "2"; "-r"; "48000"; "-q"]
    = ["aplay"; "-D"; device o; "-f"; name; "-c"; "2"; "-r"; "48000"; "-q"].
Proof.
  destruct (get_data_for_bits_frames (mkEncoding "<hh" 32767 2) 48000 1200 "01"
              (ordered LittleEndian (le_bytes 2 (- 32767))
               ++ ordered LittleEndian (le_bytes 2 (- 32767)) ++ [])
              (ordered LittleEndian (le_bytes 2 32767)
               ++ ordered LittleEndian (le_bytes 2 32767) ++ [])
              4)
    as [d [Hd [Hlen _]]]; try reflexivity; try lia; [simpl; lia|].
  apply (aplay_command silence silence
           ["miniplay.py"; "-D"; "default"; "-T"; "square"]
           {| cmd := ["aplay"; "-D"; "default"; "-f"; "S16_LE"; "-c"; "2";
                      "-r"; "48000"; "-q"];
              data := d |}).
  unfold prepare.
  assert (Hp : parse_args ["miniplay.py"; "-D"; "default"; "-T"; "square"]
               = Ok {| device := "default"; format := None; tune := "square" |})
    by reflexivity.
  rewrite Hp. cbn [bind format device tune].
  change (select_encoding (infer_format None "default"))
    with (Ok (mkEncoding "<hh" 32767 2)).
  cbn [bind sbs].
  change (generate silence silence (mkEncoding "<hh" 32767 2) rate "square")
    with (get_data_for_bits (mkEncoding "<hh" 32767 2) 48000 1200 "01").
  rewrite Hd. cbn [bind]. unfold assert_length.
  replace (Z.of_nat (List.length d) =? rate * 2 * 2) with true
    by (symmetry; apply Z.eqb_eq;
        change (Z.to_nat (48000 / 1200)) with 40%nat in Hlen;
        change (Z.to_nat 1200) with 1200%nat in Hlen;
        rewrite Hlen; unfold rate; lia).
  reflexivity.
Defined.

(** * The values of the sine samples *)

Section SineValues.

Local Open Scope R_scope.



(** Truncation does not leave an interval with integer ends around zero. *)
Lemma int_of_float_bound (M : Z) (x : R) :
  (0 <= M)%Z -> - IZR M <= x <= IZR M ->
  (- M <= int_of_float x <= M)%Z.
Proof.
  intros HM Hx. unfold int_of_float.
  destruct (Rle_dec 0 x) as [Hp|Hn].
  - pose proof (Zfloor_bound x) as Hb.
    pose proof (Zfloor_lub 0 x Hp) as H0.
    assert (H1 : (Zfloor x <= M)%Z) by (apply le_IZR; lra).
    lia.
  - replace x with (- - x) by ring. rewrite ZceilN.
    pose proof (Zfloor_bound (- x)) as Hb.
    assert (H0 : (0 <= Zfloor (- x))%Z) by (apply Zfloor_lub; simpl; lra).
    assert (H1 : (Zfloor (- x) <= M)%Z) by (apply le_IZR; lra).
    lia.
Qed.

Lemma sine_times_amplitude (M : Z) (a : R) :
  (0 <= M)%Z -> - IZR M <= sin a * IZR M <= IZR M.
Proof.
  intros HM. pose proof (SIN_bound a) as Hs.
  assert (0 <= IZR M) by (apply IZR_le in HM; exact HM).
  split; nra.
Qed.


Lemma sin4_sample_bound (rate maxv i : Z) :
  (0 <= maxv)%Z -> (- maxv <= sin4_sample rate maxv i <= maxv)%Z.
Proof.
  intros H. apply int_of_float_bound; [assumption|].
  now apply sine_times_amplitude.
Qed.





End SineValues.





